(** * decomp-permuter: the search coordinator of [src/main.py]

    A shallow embedding of the coordination code of [src/main.py]:
    the seed cycle generator [cycle_seeds], the result aggregator
    [post_score] with [write_candidate], the worker loop
    [multiprocess_worker], the queue loops of [run_inner] and the
    interrupt handler of [run].

    Python integers are [Z]; strings are [string]; the readings of the
    clock are doubles ([float]); the dedup set of a permuter is a
    [gset string]; queues are lists; printing appends chunks to the
    [stdout] of an explicit world, and reading takes from its
    [stdin]. *)

From Stdlib Require Import ZArith List String Ascii PrimFloat Lia.
From Stdlib Require Import DecimalString DecimalPos DecimalZ.
From stdpp Require Import base decidable option list gmap sets strings.

#[local] Open Scope string_scope.
#[local] Open Scope list_scope.
#[local] Open Scope Z_scope.

(** ** Python built-ins used by [main.py] *)

Module Py.

(** What a call can do besides returning. *)
Inductive exn :=
  | ValueError
  | IndexError
  | AssertionError (msg : string)
  | FileExistsError
  | QueueEmpty
  | EOFError
  | KeyboardInterrupt.

(** A call returns, leaves through [sys.exit], raises, or never comes
    back. *)
Inductive outcome (A : Type) :=
  | Ret (a : A)
  | Exit (code : Z)
  | Raise (e : exn)
  | Diverge.
#[global] Arguments Ret {A} a.
#[global] Arguments Exit {A} code.
#[global] Arguments Raise {A} e.
#[global] Arguments Diverge {A}.

Definition bind {A B} (m : outcome A) (k : A -> outcome B) : outcome B :=
  match m with
  | Ret a => k a
  | Exit c => Exit c
  | Raise e => Raise e
  | Diverge => Diverge
  end.

(** [str(n)] for an [int]: decimal digits, ["-"] in front of a
    negative number. *)
Definition str (n : Z) : string := NilZero.string_of_int (Z.to_int n).

(** [int(s)] on the plain form [-?[0-9]+]; any other string is a
    [ValueError] here (Python also accepts surrounding blanks, a
    leading [+], single underscores between digits and digits outside
    ASCII, none of which a string built by [str] or a string of
    digits, minus signs and commas contains). *)
Definition int (s : string) : outcome Z :=
  match NilZero.int_of_string s with
  | Some d => Ret (Z.of_int d)
  | None => Raise ValueError
  end.

(** [s.split(sep)] for a one-character separator. *)
Fixpoint split (sep : ascii) (s : string) : list string :=
  match s with
  | EmptyString => [EmptyString]
  | String c s' =>
      if Ascii.eqb c sep then EmptyString :: split sep s'
      else match split sep s' with
           | h :: t => String c h :: t
           | [] => [String c EmptyString]
           end
  end.

(** [list(map(f, l))] for an [f] that can raise. *)
Fixpoint map_outcome {A B} (f : A -> outcome B) (l : list A)
  : outcome (list B) :=
  match l with
  | [] => Ret []
  | x :: l' =>
      bind (f x) (fun y => bind (map_outcome f l') (fun ys => Ret (y :: ys)))
  end.

(** [l[i]] with Python's negative indices. *)
Definition index {A} (l : list A) (i : Z) : outcome A :=
  let n := Z.of_nat (length l) in
  let j := if i <? 0 then i + n else i in
  if (0 <=? j) && (j <? n) then
    match l !! Z.to_nat j with
    | Some x => Ret x
    | None => Raise IndexError
    end
  else Raise IndexError.

(** [s * n] for a string [s]. *)
Fixpoint repeat_str (s : string) (n : nat) : string :=
  match n with
  | O => EmptyString
  | S n' => s +:+ repeat_str s n'
  end.

(** [len(s)] *)
Definition len (s : string) : Z := Z.of_nat (String.length s).

(** [os.path.join(a, b)] for a relative [b]. *)
Definition ends_with_slash (a : string) : bool :=
  match String.get (String.length a - 1)%nat a with
  | Some c => Ascii.eqb c "/"%char
  | None => false
  end.

Definition path_join (a b : string) : string :=
  if String.eqb a EmptyString then b
  else if ends_with_slash a then a +:+ b
  else a +:+ "/" +:+ b.

(** [c not in s] for a character [c]. *)
Fixpoint lacks (c : ascii) (s : string) : bool :=
  match s with
  | EmptyString => true
  | String a s' => negb (Ascii.eqb a c) && lacks c s'
  end.

Definition chr (n : nat) : string := String (ascii_of_nat n) EmptyString.
Definition NL : string := chr 10.
Definition CR : string := chr 13.
Definition BS : string := chr 8.
Definition TAB : string := chr 9.
Definition ESC : string := chr 27.

End Py.

Import Py.

(** ** Data model *)

(** [Options] of [main.py].  The two float fields ([keep_prob],
    [network_priority]) are only handed on to the permuter and the
    network client and are left out. *)
Record Options := {
  directories : list string;
  show_errors : bool;
  show_timings : bool;
  print_diffs : bool;
  stack_differences : bool;
  abort_exceptions : bool;
  stop_on_zero : bool;
  force_seed : option string;
  threads : Z;
  use_network : bool
}.

(** The [Profiler] class lives in [profiler.py]; [post_score] only adds
    the time stats of a result to the overall profiler and prints them. *)
Class ProfilerOps := {
  Profiler : Type;
  new_profiler : Profiler;
  add_time_stats : Profiler -> Profiler -> Profiler;
  get_str_stats : Profiler -> string
}.

(** What an iterator of seeds can be: a list that is consumed
    ([[force_seed]] or a finite [perm_gen_all_seeds]),
    [itertools.repeat(x)], or an endless generator, given by the seed it
    yields at each position. *)
Inductive SeedIter :=
  | SeedList (l : list Z)
  | SeedRepeat (x : Z)
  | SeedStream (f : nat -> Z) (pos : nat).

(** The fields and methods of [Permuter] (from [permuter.py]) that
    [main.py] touches.  [all_seeds] is what
    [perm_eval.perm_gen_all_seeds(permuter.permutations, random.Random())]
    returns, [is_random] is [permuter.permutations.is_random()],
    [PENALTY_INF] is [permuter.scorer.PENALTY_INF]. *)
Record Permuter := {
  dir : string;
  fn_name : string;
  unique_name : string;
  base_score : Z;
  best_score : Z;
  hashes : gset string;
  PENALTY_INF : Z;
  base_source : string;
  diff : string -> string;
  is_random : bool;
  all_seeds : SeedIter
}.

Definition set_best_score (p : Permuter) (s : Z) : Permuter :=
  {| dir := dir p; fn_name := fn_name p; unique_name := unique_name p;
     base_score := base_score p; best_score := s; hashes := hashes p;
     PENALTY_INF := PENALTY_INF p; base_source := base_source p;
     diff := diff p; is_random := is_random p; all_seeds := all_seeds p |}.

Definition set_hashes (p : Permuter) (h : gset string) : Permuter :=
  {| dir := dir p; fn_name := fn_name p; unique_name := unique_name p;
     base_score := base_score p; best_score := best_score p; hashes := h;
     PENALTY_INF := PENALTY_INF p; base_source := base_source p;
     diff := diff p; is_random := is_random p; all_seeds := all_seeds p |}.

(** What a read of standard input meets: a line, the end of the input,
    or a Ctrl+C while it waits. *)
Inductive StdinEvent :=
  | Line (s : string)
  | EndOfInput
  | StdinCtrlC.

(** The state threaded through the coordinator process.  Outside the
    process: what went to standard output and standard error (one chunk
    per [print] call, its [end] included), what the reads of standard
    input will meet (a read waits for ever once the list is used up),
    the directories that [write_candidate] looks at (each with its
    files by name) and the clock ([time.time()] returns [clock ticks],
    a double, and moves on).  Inside: [last_time], the local of [run]
    that its closure [heartbeat] assigns. *)
Record World := {
  stdout : list string;
  stderr : list string;
  stdin : list StdinEvent;
  dirs : gmap string (gmap string string);
  clock : nat -> float;
  ticks : nat;
  last_time : float
}.

(** Code that prints and writes files: it maps the world before to the
    world after and says how the call ended. *)
Definition IO (A : Type) : Type := World -> World * outcome A.

Definition io_ret {A} (a : A) : IO A := fun w => (w, Ret a).

Definition io_bind {A B} (m : IO A) (k : A -> IO B) : IO B :=
  fun w =>
    match m w with
    | (w', Ret a) => k a w'
    | (w', Exit c) => (w', Exit c)
    | (w', Raise e) => (w', Raise e)
    | (w', Diverge) => (w', Diverge)
    end.

Notation "'do' x <- m ; k" := (io_bind m (fun x => k))
  (at level 10, x pattern, m at level 100, k at level 200).
Notation "m ;; k" := (io_bind m (fun _ => k))
  (at level 100, k at level 200, right associativity).

Definition io_raise {A} (e : exn) : IO A := fun w => (w, Raise e).
Definition sys_exit {A} (code : Z) : IO A := fun w => (w, Exit code).
Definition io_diverge {A} : IO A := fun w => (w, Diverge).
Definition when (b : bool) (m : IO unit) : IO unit := if b then m else io_ret tt.

(** [print(s, end="")] and [print(s)] *)
Definition print_end (s : string) : IO unit :=
  fun w => ({| stdout := stdout w ++ [s]; stderr := stderr w; stdin := stdin w;
               dirs := dirs w; clock := clock w; ticks := ticks w;
               last_time := last_time w |},
            Ret tt).
Definition print (s : string) : IO unit := print_end (s +:+ NL).

Definition set_stdin (w : World) (rest : list StdinEvent) : World :=
  {| stdout := stdout w; stderr := stderr w; stdin := rest; dirs := dirs w;
     clock := clock w; ticks := ticks w; last_time := last_time w |}.

(** [input(prompt)]: the prompt goes to standard output, then a line is
    read.  At the end of the input the call raises [EOFError], a Ctrl+C
    during the wait raises [KeyboardInterrupt], and with nothing to
    read the call does not come back. *)
Definition input (prompt : string) : IO string :=
  print_end prompt ;;
  fun w =>
    match stdin w with
    | [] => (w, Diverge)
    | Line s :: rest => (set_stdin w rest, Ret s)
    | EndOfInput :: rest => (set_stdin w rest, Raise EOFError)
    | StdinCtrlC :: rest => (set_stdin w rest, Raise KeyboardInterrupt)
    end.

(** [assert x is not None, msg] *)
Definition assert_some {A} (x : option A) (msg : string) : IO A :=
  match x with
  | Some a => io_ret a
  | None => io_raise (AssertionError msg)
  end.

(** [print(s, file=sys.stderr)] *)
Definition eprint (s : string) : IO unit :=
  fun w => ({| stdout := stdout w; stderr := stderr w ++ [s +:+ NL];
               stdin := stdin w; dirs := dirs w; clock := clock w; ticks := ticks w;
               last_time := last_time w |},
            Ret tt).

Definition get_dirs : IO (gmap string (gmap string string)) :=
  fun w => (w, Ret (dirs w)).

Definition set_dirs (w : World) (d : gmap string (gmap string string)) : World :=
  {| stdout := stdout w; stderr := stderr w; stdin := stdin w; dirs := d;
     clock := clock w; ticks := ticks w; last_time := last_time w |}.

(** [time.time()] *)
Definition time_time : IO float :=
  fun w => ({| stdout := stdout w; stderr := stderr w; stdin := stdin w;
               dirs := dirs w; clock := clock w; ticks := S (ticks w);
               last_time := last_time w |},
            Ret (clock w (ticks w))).

Definition get_last_time : IO float := fun w => (w, Ret (last_time w)).

Definition set_last_time (t : float) : IO unit :=
  fun w => ({| stdout := stdout w; stderr := stderr w; stdin := stdin w;
               dirs := dirs w; clock := clock w; ticks := ticks w; last_time := t |},
            Ret tt).

(** [os.mkdir(path)] *)
Definition os_mkdir (path : string) : IO unit :=
  fun w =>
    match dirs w !! path with
    | Some _ => (w, Raise FileExistsError)
    | None => (set_dirs w (<[path := ∅]> (dirs w)), Ret tt)
    end.

(** [with open(os.path.join(d, name), "x") as f: f.write(text)]: the
    file must not exist yet. *)
Definition create_file (d name text : string) : IO unit :=
  fun w =>
    let here := default ∅ (dirs w !! d) in
    match here !! name with
    | Some _ => (w, Raise FileExistsError)
    | None =>
        (set_dirs w (<[d := <[name := text]> here]> (dirs w)), Ret tt)
    end.

Section Aggregator.
Context `{ProfilerOps}.

Record CandidateResult := {
  score : option Z;
  hash : option string;
  source : option string;
  profiler : Profiler
}.

Record EvalError := {
  exc_str : string;
  seed : option (Z * Z)
}.

Inductive EvalResult :=
  | Scored (r : CandidateResult)
  | Failed (e : EvalError).

Record EvalContext := {
  options : Options;
  iteration : Z;
  errors : Z;
  overall_profiler : Profiler;
  permuters : list Permuter
}.

(** *** [write_candidate] *)

(** [f"{result.score}"] *)
Definition fmt_score (s : option Z) : string :=
  match s with
  | Some v => str v
  | None => "None"
  end.

Definition output_dir_name (perm : Permuter) (sc : option Z) (ctr : Z) : string :=
  path_join (dir perm) ("output-" +:+ fmt_score sc +:+ "-" +:+ str ctr).

(** The [while True] loop of [write_candidate], entered with the value
    of [ctr] before its increment: [os.mkdir] raises [FileExistsError]
    on a directory that exists, and the loop goes on to the next
    counter.  It gives the directory it made. *)
Fixpoint mkdir_loop (fuel : nat) (perm : Permuter) (sc : option Z) (ctr : Z)
  : IO string :=
  match fuel with
  | O => io_diverge
  | S fuel' =>
      let ctr := ctr + 1 in
      let output_dir := output_dir_name perm sc ctr in
      fun w =>
        match os_mkdir output_dir w with
        | (w', Raise FileExistsError) => mkdir_loop fuel' perm sc ctr w'
        | (w', Ret _) => (w', Ret output_dir)
        | (w', Exit c) => (w', Exit c)
        | (w', Raise e) => (w', Raise e)
        | (w', Diverge) => (w', Diverge)
        end
  end.

Definition write_candidate (perm : Permuter) (result : CandidateResult) : IO unit :=
  do existing <- get_dirs;
  do output_dir <- mkdir_loop (S (size existing)) perm (score result) 0;
  do src <- assert_some (source result) "need_to_send_source is wrong!";
  create_file output_dir "source.c" src ;;
  create_file output_dir "base.c" (base_source perm) ;;
  create_file output_dir "score.txt" (fmt_score (score result) +:+ NL) ;;
  create_file output_dir "diff.txt" (diff perm src +:+ NL) ;;
  print ("wrote to " +:+ output_dir).

(** *** [post_score] *)

Definition set_counters (c : EvalContext) (it er : Z) (prof : Profiler) : EvalContext :=
  {| options := options c; iteration := it; errors := er;
     overall_profiler := prof; permuters := permuters c |}.

(** The colour codes of the four messages. *)
Definition green (s : string) : string := ESC +:+ "[32;1m" +:+ s +:+ ESC +:+ "[0m".
Definition yellow (s : string) : string := ESC +:+ "[33m" +:+ s +:+ ESC +:+ "[0m".

(** [post_score] returns the context and the permuter as it leaves them
    (both are mutated in place in the source) with its boolean. *)
Definition post_score (context : EvalContext) (permuter : Permuter)
    (result : EvalResult) : IO (EvalContext * Permuter * bool) :=
  match result with
  | Failed result =>
      print (NL +:+ "[" +:+ unique_name permuter +:+ "] internal permuter failure.") ;;
      print (exc_str result) ;;
      match seed result with
      | Some (seed0, seed1) =>
          let seed_str := str seed1 in
          let seed_str :=
            if bool_decide (seed0 ≠ 0) then str seed0 +:+ "," +:+ seed_str
            else seed_str in
          print ("To reproduce the failure, rerun with: --seed " +:+ seed_str)
      | None => io_ret tt
      end ;;
      if abort_exceptions (options context) then sys_exit 1
      else io_ret (context, permuter, false)
  | Scored result =>
      let score_value := score result in
      let score_hash := hash result in
      when (print_diffs (options context))
        (do src <- assert_some (source result) "need_to_send_source is wrong";
         print "" ;;
         print (diff permuter src) ;;
         do _ <- input "Press any key to continue...";
         io_ret tt) ;;
      let iteration' := iteration context + 1 in
      let errors' :=
        match score_value with
        | None => errors context + 1
        | Some _ => errors context
        end in
      let disp_score :=
        match score_value with
        | Some v => if v =? PENALTY_INF permuter then "inf" else str v
        | None => "None"
        end in
      let overall' :=
        if show_timings (options context)
        then add_time_stats (overall_profiler context) (profiler result)
        else overall_profiler context in
      let timings :=
        if show_timings (options context)
        then "  " +:+ TAB +:+ get_str_stats overall'
        else "" in
      let context' := set_counters context iteration' errors' overall' in
      let status_line :=
        "iteration " +:+ str iteration' +:+ ", " +:+ str errors'
        +:+ " errors, score = " +:+ disp_score +:+ timings in
      do permuter' <-
        match score_value, score_hash with
        | Some score_value, Some score_hash =>
            if (score_value <=? base_score permuter)
               && negb (bool_decide (score_hash ∈ hashes permuter))
            then
              let permuter1 :=
                if bool_decide (score_value ≠ 0)
                then set_hashes permuter ({[score_hash]} ∪ hashes permuter)
                else permuter in
              print_end (CR +:+ repeat_str " " (Z.to_nat (len status_line + 10)) +:+ CR) ;;
              (if score_value <? best_score permuter1 then
                 print (green ("[" +:+ unique_name permuter1 +:+ "] found new best score! ("
                               +:+ str score_value +:+ " vs "
                               +:+ str (base_score permuter1) +:+ ")"))
               else if score_value =? best_score permuter1 then
                 print (green ("[" +:+ unique_name permuter1 +:+ "] tied best score! ("
                               +:+ str score_value +:+ " vs "
                               +:+ str (base_score permuter1) +:+ ")"))
               else if score_value <? base_score permuter1 then
                 print (yellow ("[" +:+ unique_name permuter1 +:+ "] found a better score! ("
                                +:+ str score_value +:+ " vs "
                                +:+ str (base_score permuter1) +:+ ")"))
               else
                 print (yellow ("[" +:+ unique_name permuter1
                                +:+ "] found different asm with same score ("
                                +:+ str score_value +:+ ")"))) ;;
              let permuter2 :=
                set_best_score permuter1 (Z.min (best_score permuter1) score_value) in
              write_candidate permuter2 result ;;
              io_ret permuter2
            else io_ret permuter
        | _, _ => io_ret permuter
        end;
      print_end (repeat_str BS 10 +:+ repeat_str " " 10 +:+ CR +:+ status_line) ;;
      io_ret (context', permuter', bool_decide (score_value = Some 0))
  end.

End Aggregator.

(** ** The seed cycle generator: [cycle_seeds] *)

(** [next(it, None)] on an iterator of seeds. *)
Definition seed_next (it : SeedIter) : option (Z * SeedIter) :=
  match it with
  | SeedList [] => None
  | SeedList (x :: l) => Some (x, SeedList l)
  | SeedRepeat x => Some (x, SeedRepeat x)
  | SeedStream f pos => Some (f pos, SeedStream f (S pos))
  end.

(** [zip(itertools.repeat(perm_ind), it)] *)
Record PairIter := {
  perm_ind : Z;
  seeds : SeedIter
}.

Definition pair_next (it : PairIter) : option ((Z * Z) * PairIter) :=
  match seed_next (seeds it) with
  | Some (s, rest) => Some ((perm_ind it, s), {| perm_ind := perm_ind it; seeds := rest |})
  | None => None
  end.

(** The iterator that the [for] loop of [cycle_seeds] makes for one
    permuter.  [not force_seed] holds for [None] and for [0]. *)
Definition seed_iterator (force_seed : option Z) (permuter : Permuter) : SeedIter :=
  match force_seed with
  | None => all_seeds permuter
  | Some fs =>
      if fs =? 0 then all_seeds permuter
      else if is_random permuter then SeedRepeat fs
      else SeedList [fs]
  end.

Definition make_iterators (permuters : list Permuter) (force_seed : option Z)
  : list PairIter :=
  imap (fun perm_ind permuter =>
          {| perm_ind := Z.of_nat perm_ind;
             seeds := seed_iterator force_seed permuter |}) permuters.

(** The local state of the generator between two [yield]s. *)
Record CycleState := {
  iterators : list PairIter;
  i : Z
}.

Inductive LoopStep :=
  | Yielded (item : Z * Z) (st : CycleState)
  | Dropped (st : CycleState)
  | LoopEnd.

(** One pass through the body of [while iterators:]. *)
Definition loop_body (st : CycleState) : LoopStep :=
  match iterators st with
  | [] => LoopEnd
  | it0 :: _ =>
      let i := i st `mod` Z.of_nat (length (iterators st)) in
      match pair_next (nth (Z.to_nat i) (iterators st) it0) with
      | None =>
          Dropped {| iterators := delete (Z.to_nat i) (iterators st); i := i - 1 |}
      | Some (item, rest) =>
          Yielded item {| iterators := <[Z.to_nat i := rest]> (iterators st);
                          i := i + 1 |}
      end
  end.

Inductive GenResult :=
  | GenYield (item : Z * Z) (st : CycleState)
  | GenStop
  | GenFuel.

(** Running the loop up to its next [yield]. *)
Fixpoint gen_resume (fuel : nat) (st : CycleState) : GenResult :=
  match fuel with
  | O => GenFuel
  | S fuel' =>
      match loop_body st with
      | Yielded item st' => GenYield item st'
      | Dropped st' => gen_resume fuel' st'
      | LoopEnd => GenStop
      end
  end.

(** [next(gen, None)]: every pass that does not yield removes an
    iterator, so one pass more than there are iterators is enough. *)
Definition cycle_next (st : CycleState) : GenResult :=
  gen_resume (S (length (iterators st))) st.

Definition cycle_seeds (permuters : list Permuter) (force_seed : option Z)
  : CycleState :=
  {| iterators := make_iterators permuters force_seed; i := 0 |}.

(** The first [n] items of the generator (fewer when it ends before),
    and the state it is left in, [None] once it has ended. *)
Fixpoint cycle_take (n : nat) (st : CycleState)
  : list (Z * Z) * option CycleState :=
  match n with
  | O => ([], Some st)
  | S n' =>
      match cycle_next st with
      | GenYield item st' =>
          let (items, final) := cycle_take n' st' in (item :: items, final)
      | _ => ([], None)
      end
  end.

(** ** Workers and the coordinator *)

Section Coordination.
Context `{ProfilerOps}.

(** [Permuter.try_eval_candidate] (from [permuter.py]): it turns a seed
    into a scored candidate or an [EvalError]. *)
Variable try_eval_candidate : Permuter -> Z -> EvalResult.

(** What travels on the task queue and on the feedback queue. *)
Inductive Task :=
  | TaskFinished
  | TaskWork (permuter_index seed : Z).

Inductive Feedback :=
  | FbFinished
  | FbNeedMoreWork
  | FbResult (permuter_index : Z) (res : EvalResult).

(** *** [multiprocess_worker] *)

(** [queue.get(block=b)] of [multiprocessing.Queue] on a queue holding
    [q]: the oldest item when there is one; on an empty queue a blocking
    call waits and a non-blocking call raises [queue.Empty]. *)
Inductive GetOutcome (A : Type) :=
  | GetReturns (x : A) (rest : list A)
  | GetRaisesEmpty
  | GetWaits.
#[global] Arguments GetReturns {A} x rest.
#[global] Arguments GetRaisesEmpty {A}.
#[global] Arguments GetWaits {A}.

Definition queue_get {A} (block : bool) (q : list A) : GetOutcome A :=
  match q with
  | x :: rest => GetReturns x rest
  | [] => if block then GetWaits else GetRaisesEmpty
  end.

(** One pass through the body of the worker's [while True], from the
    value of [should_block] and the task queue as it is at the call of
    [get].  The worker tests the item for [None], so the queue is a
    list of optional tasks. *)
Inductive WorkerStep :=
  | WContinue (should_block : bool) (rest : list (option Task)) (out : list Feedback)
  | WBreak (rest : list (option Task)) (out : list Feedback)
  | WRaise (e : exn) (rest : list (option Task))
  | WWait.

Definition worker_body (permuters : list Permuter) (should_block : bool)
    (input_queue : list (option Task)) : WorkerStep :=
  match queue_get should_block input_queue with
  | GetWaits => WWait
  | GetRaisesEmpty => WRaise QueueEmpty input_queue
  | GetReturns None rest => WContinue true rest [FbNeedMoreWork]
  | GetReturns (Some TaskFinished) rest => WBreak rest [FbFinished]
  | GetReturns (Some (TaskWork permuter_index seed)) rest =>
      match index permuters permuter_index with
      | Ret permuter =>
          WContinue false rest
            [FbResult permuter_index (try_eval_candidate permuter seed)]
      | Exit _ | Diverge => WRaise IndexError rest
      | Raise e => WRaise e rest
      end
  end.

(** What happens around a worker from one pull to the next.  [Puts]:
    other processes put items on the task queue, and the pull and the
    work on what it gives go through undisturbed.  [CtrlC]: the user
    presses Ctrl+C before the pull gives anything.  [CtrlCAtWork]:
    items are put, the pull goes through, and the Ctrl+C comes while
    the worker is on the item, before its answer is on the feedback
    queue (a Ctrl+C after that is a [CtrlC] before the next pull). *)
Inductive WorkerEvent :=
  | Puts (items : list (option Task))
  | CtrlC
  | CtrlCAtWork (items : list (option Task)).

(** How a run of the worker stands at the end of a script of events. *)
Inductive WorkerEnd :=
  | WorkerReturned
  | WorkerDied (e : exn)
  | WorkerAlive (should_block : bool).

Record WorkerRun := {
  sent : list Feedback;
  left_in_queue : list (option Task);
  ending : WorkerEnd
}.

(** The [try] block of [multiprocess_worker] against a script: one
    event for each pull.  [KeyboardInterrupt] is caught and the
    function returns, and the item that the worker was on is answered
    by nothing; any other exception leaves the function; a pull that
    waits is completed after the next event. *)
Fixpoint worker_loop (permuters : list Permuter) (script : list WorkerEvent)
    (should_block : bool) (input_queue : list (option Task)) : WorkerRun :=
  match script with
  | [] => {| sent := []; left_in_queue := input_queue;
             ending := WorkerAlive should_block |}
  | CtrlC :: _ =>
      {| sent := []; left_in_queue := input_queue; ending := WorkerReturned |}
  | CtrlCAtWork items :: _ =>
      match queue_get should_block (input_queue ++ items) with
      | GetReturns _ rest =>
          {| sent := []; left_in_queue := rest; ending := WorkerReturned |}
      | GetRaisesEmpty =>
          {| sent := []; left_in_queue := input_queue ++ items;
             ending := WorkerDied QueueEmpty |}
      | GetWaits =>
          {| sent := []; left_in_queue := input_queue ++ items;
             ending := WorkerReturned |}
      end
  | Puts items :: script' =>
      match worker_body permuters should_block (input_queue ++ items) with
      | WContinue should_block' rest out =>
          let r := worker_loop permuters script' should_block' rest in
          {| sent := out ++ sent r; left_in_queue := left_in_queue r;
             ending := ending r |}
      | WBreak rest out =>
          {| sent := out; left_in_queue := rest; ending := WorkerReturned |}
      | WRaise e rest =>
          {| sent := []; left_in_queue := rest; ending := WorkerDied e |}
      | WWait => worker_loop permuters script' should_block (input_queue ++ items)
      end
  end.

(** [multiprocess_worker] starts with [should_block = False]. *)
Definition multiprocess_worker (permuters : list Permuter)
    (script : list WorkerEvent) (input_queue : list (option Task)) : WorkerRun :=
  worker_loop permuters script false input_queue.

(** *** The queue loops of [run_inner] *)

(** [heartbeat] as [run] defines it. *)
Definition heartbeat : IO unit :=
  do t <- time_time; set_last_time t.

(** The locals of [run_inner] that its two loops share.  [task_queue]
    lists what was put on the task queue, oldest first;
    [perm_seed_iter] is [None] once the generator has ended. *)
Record Coordinator := {
  context : EvalContext;
  active_workers : Z;
  found_zero : bool;
  perm_seed_iter : option CycleState;
  task_queue : list Task
}.

(** What a call of [feedback_queue.get()] comes back with: an item of
    the queue, or the [KeyboardInterrupt] of a Ctrl+C during the wait.
    A call on a queue to which nobody puts any more never comes back. *)
Inductive GetEvent :=
  | Receives (fb : Feedback)
  | Interrupted.

Definition lift {A} (o : outcome A) : IO A := fun w => (w, o).

(** [context.permuters[permuter_index]] is the object that [post_score]
    mutates: the permuter it leaves is put back at the same place. *)
Definition store_permuter (context : EvalContext) (permuter_index : Z)
    (permuter : Permuter) : EvalContext :=
  let n := Z.of_nat (length (permuters context)) in
  let j := if permuter_index <? 0 then permuter_index + n else permuter_index in
  {| options := options context; iteration := iteration context;
     errors := errors context; overall_profiler := overall_profiler context;
     permuters := <[Z.to_nat j := permuter]> (permuters context) |}.

Definition process_result (context : EvalContext) (permuter_index : Z)
    (res : EvalResult) : IO (EvalContext * bool) :=
  do permuter <- lift (index (permuters context) permuter_index);
  do r <- post_score context permuter res;
  let '(context', permuter', b) := r in
  io_ret (store_permuter context' permuter_index permuter', b).

(** [next(perm_seed_iter, None)] *)
Definition next_task (it : option CycleState) : option (Z * Z) * option CycleState :=
  match it with
  | None => (None, None)
  | Some st =>
      match cycle_next st with
      | GenYield item st' => (Some item, Some st')
      | _ => (None, None)
      end
  end.

Definition set_active (c : Coordinator) (n : Z) : Coordinator :=
  {| context := context c; active_workers := n; found_zero := found_zero c;
     perm_seed_iter := perm_seed_iter c; task_queue := task_queue c |}.

Definition set_result (c : Coordinator) (ctx : EvalContext) (fz : bool) : Coordinator :=
  {| context := ctx; active_workers := active_workers c; found_zero := fz;
     perm_seed_iter := perm_seed_iter c; task_queue := task_queue c |}.

Definition set_tasks (c : Coordinator) (it : option CycleState) (q : list Task)
  : Coordinator :=
  {| context := context c; active_workers := active_workers c;
     found_zero := found_zero c; perm_seed_iter := it; task_queue := q |}.

(** The first loop: one task out for each feedback in.  It returns the
    locals and the calls of [get] still to come. *)
Fixpoint dispatch_loop (hb : IO unit) (events : list GetEvent) (c : Coordinator)
  : IO (Coordinator * list GetEvent) :=
  if 0 <? active_workers c then
    hb ;;
    match events with
    | [] => io_diverge
    | Interrupted :: _ => io_raise KeyboardInterrupt
    | Receives FbFinished :: rest =>
        dispatch_loop hb rest (set_active c (active_workers c - 1))
    | Receives fb :: rest =>
        do r <-
          match fb with
          | FbResult permuter_index res =>
              do r <- process_result (context c) permuter_index res;
              let (ctx, zero) := r in
              if zero
              then io_ret (set_result c ctx true, stop_on_zero (options ctx))
              else io_ret (set_result c ctx (found_zero c), false)
          | _ => io_ret (c, false)
          end;
        let '(c, stop) := r in
        if stop then io_ret (c, rest)
        else
          match next_task (perm_seed_iter c) with
          | (None, it) => io_ret (set_tasks c it (task_queue c), rest)
          | (Some (permuter_index, seed), it) =>
              dispatch_loop hb rest
                (set_tasks c it (task_queue c ++ [TaskWork permuter_index seed]))
          end
    end
  else io_ret (c, events).

(** [for i in range(active_workers): task_queue.put(Finished())] *)
Definition signal_workers (c : Coordinator) : Coordinator :=
  set_tasks c (perm_seed_iter c)
    (task_queue c ++ replicate (Z.to_nat (active_workers c)) TaskFinished).

(** The second loop: await the final results. *)
Fixpoint drain_loop (hb : IO unit) (events : list GetEvent) (c : Coordinator)
  : IO (Coordinator * list GetEvent) :=
  if 0 <? active_workers c then
    hb ;;
    match events with
    | [] => io_diverge
    | Interrupted :: _ => io_raise KeyboardInterrupt
    | Receives FbFinished :: rest =>
        drain_loop hb rest (set_active c (active_workers c - 1))
    | Receives FbNeedMoreWork :: rest => drain_loop hb rest c
    | Receives (FbResult permuter_index res) :: rest =>
        if negb (stop_on_zero (options (context c)) && found_zero c) then
          do r <- process_result (context c) permuter_index res;
          let (ctx, zero) := r in
          drain_loop hb rest (set_result c ctx (if zero then true else found_zero c))
        else drain_loop hb rest c
    end
  else io_ret (c, events).

(** *** [run_inner] and [run] *)

(** The seed option at the top of [run_inner]: the pair
    [(force_rng_seed, force_seed)].  An absent or empty option leaves
    both [None]. *)
Definition parse_force_seed (opt : option string) : outcome (option Z * option Z) :=
  match opt with
  | None => Ret (None, None)
  | Some s =>
      if String.eqb s "" then Ret (None, None)
      else
        bind (map_outcome int (split ","%char s)) (fun seed_parts =>
        bind (index seed_parts (-1)) (fun force_rng_seed =>
        if (length seed_parts =? 1)%nat then Ret (Some force_rng_seed, Some 0)
        else bind (index seed_parts 0) (fun force_seed =>
             Ret (Some force_rng_seed, Some force_seed))))
  end.

(** The body of the loop over [options.directories] after its
    [heartbeat()]: the checks of the files, [Compiler], [Scorer],
    [preprocess] and the [Permuter] constructor, all outside [main.py].
    It gets the directory and [force_rng_seed]. *)
Variable load_permuter : Options -> string -> option Z -> IO Permuter.

(** The number of threads that [connect_to_servers] gives. *)
Variable net_threads : nat.

(** What [traceback.print_exc()] writes. *)
Variable traceback : string.

Fixpoint load_permuters (hb : IO unit) (options : Options) (ds : list string)
    (force_rng_seed : option Z) : IO (list Permuter * gmap string Z) :=
  match ds with
  | [] => io_ret ([], ∅)
  | d :: ds' =>
      hb ;;
      do permuter <- load_permuter options d force_rng_seed;
      do r <- load_permuters hb options ds' force_rng_seed;
      let (ps, name_counts) := r in
      io_ret (permuter :: ps,
              <[fn_name permuter := default 0 (name_counts !! fn_name permuter) + 1]>
                name_counts)
  end.

Definition set_unique_name (p : Permuter) (s : string) : Permuter :=
  {| dir := dir p; fn_name := fn_name p; unique_name := s;
     base_score := base_score p; best_score := best_score p; hashes := hashes p;
     PENALTY_INF := PENALTY_INF p; base_source := base_source p;
     diff := diff p; is_random := is_random p; all_seeds := all_seeds p |}.

(** The loop that makes the names unique and prints the base scores. *)
Fixpoint announce (name_counts : gmap string Z) (ps : list Permuter)
  : IO (list Permuter) :=
  match ps with
  | [] => io_ret []
  | permuter :: ps' =>
      let permuter :=
        if 1 <? default 0 (name_counts !! fn_name permuter)
        then set_unique_name permuter
               (unique_name permuter +:+ " (" +:+ dir permuter +:+ ")")
        else permuter in
      print ("[" +:+ unique_name permuter +:+ "] base score = "
             +:+ str (best_score permuter)) ;;
      do rest <- announce name_counts ps';
      io_ret (permuter :: rest)
  end.

(** The single-threaded loop: [fuel] bounds the number of seeds it
    takes from the generator, which can be endless. *)
Fixpoint single_loop (fuel : nat) (hb : IO unit) (context : EvalContext)
    (it : CycleState) (found_zero : bool) : IO (EvalContext * bool) :=
  match fuel with
  | O => io_diverge
  | S fuel' =>
      match cycle_next it with
      | GenYield (permuter_index, seed) it' =>
          hb ;;
          do permuter <- lift (index (permuters context) permuter_index);
          do r <- process_result context permuter_index
                    (try_eval_candidate permuter seed);
          let (context, zero) := r in
          if zero then
            if stop_on_zero (options context) then io_ret (context, true)
            else single_loop fuel' hb context it' true
          else single_loop fuel' hb context it' found_zero
      | _ => io_ret (context, found_zero)
      end
  end.

Definition run_inner (fuel : nat) (events : list GetEvent) (options : Options)
    (hb : IO unit) : IO (list Z) :=
  print "Loading..." ;;
  do seeds <- lift (parse_force_seed (force_seed options));
  let (force_rng_seed, force_seed) := seeds in
  do loaded <- load_permuters hb options (directories options) force_rng_seed;
  let (ps, name_counts) := loaded in
  print "" ;;
  do ps <- announce name_counts ps;
  let ctx :=
    {| options := options; iteration := 0; errors := 0;
       overall_profiler := new_profiler; permuters := ps |} in
  let seed_iter := cycle_seeds ps force_seed in
  do r <-
    (if (threads options =? 1) && negb (use_network options) then
       single_loop fuel hb ctx seed_iter false
     else
       let workers :=
         Z.of_nat (if use_network options then net_threads else O)
         + Z.max 0 (threads options) in
       if workers =? 0 then
         print "No remote servers available. Exiting." ;; sys_exit 1
       else
         do r <- dispatch_loop hb events
                   {| context := ctx; active_workers := workers;
                      found_zero := false; perm_seed_iter := Some seed_iter;
                      task_queue := [] |};
         let (c, rest) := r in
         do r <- drain_loop hb rest (signal_workers c);
         let (c, _) := r in
         io_ret (context c, found_zero c));
  let (ctx, zero) := r in
  when zero (print (NL +:+ "Found zero score! Exiting.")) ;;
  io_ret (map best_score (permuters ctx)).

(** The [except KeyboardInterrupt] clause of [run]. *)
Definition on_interrupt : IO (list Z) :=
  do now <- time_time;
  do last <- get_last_time;
  if PrimFloat.ltb 5 (PrimFloat.sub now last) then
    print "" ;;
    print "Aborting stuck process." ;;
    (fun w => eprint traceback w) ;;
    sys_exit 1
  else
    print "" ;;
    print "Exiting." ;;
    sys_exit 0.

Definition run (fuel : nat) (events : list GetEvent) (options : Options)
  : IO (list Z) :=
  do t <- time_time;
  set_last_time t ;;
  fun w =>
    match run_inner fuel events options heartbeat w with
    | (w', Raise KeyboardInterrupt) => on_interrupt w'
    | r => r
    end.

End Coordination.

(** ** Concrete values on which the code is run *)

(** A profiler without stats. *)
#[global] Instance unit_profiler : ProfilerOps :=
  {| Profiler := unit; new_profiler := tt;
     add_time_stats := fun _ _ => tt; get_str_stats := fun _ => "" |}.

Definition sample_options : Options :=
  {| directories := ["a"; "b"; "c"]; show_errors := false; show_timings := false;
     print_diffs := false; stack_differences := false; abort_exceptions := false;
     stop_on_zero := false; force_seed := None; threads := 2;
     use_network := false |}.

(** A permuter in directory [d] with base score [base], nothing seen
    yet, and the given seed space. *)
Definition sample_permuter (d : string) (base : Z) (random : bool)
    (space : SeedIter) : Permuter :=
  {| dir := d; fn_name := "func"; unique_name := "func";
     base_score := base; best_score := base; hashes := ∅;
     PENALTY_INF := 1000000000; base_source := "int f(void);";
     diff := fun s => s; is_random := random; all_seeds := space |}.

Definition sample_context (ps : list Permuter) : EvalContext :=
  {| options := sample_options; iteration := 0; errors := 0;
     overall_profiler := tt; permuters := ps |}.

(** A clock that goes on by one second at each reading. *)
Fixpoint seconds (n : nat) : float :=
  match n with
  | O => 0%float
  | S n' => PrimFloat.add (seconds n') 1%float
  end.

Definition sample_world : World :=
  {| stdout := []; stderr := []; stdin := []; dirs := ∅; clock := seconds;
     ticks := 0; last_time := 0%float |}.

(** A scored candidate with its source. *)
Definition sample_result (s : Z) (h : string) : CandidateResult :=
  {| score := Some s; hash := Some h; source := Some "int f(void) {}";
     profiler := (tt : @Profiler unit_profiler) |}.

Definition scored (s : Z) (h : string) : EvalResult := Scored (sample_result s h).


(** [min(base, s1, ..., sk)] *)
Definition min_score (base : Z) (scores : list Z) : Z := foldl Z.min base scores.




(** Round-robin order in the spec's words: in every round each target
    that still has seeds gives its next one, the targets in their
    order; a target without seeds is out of the rotation. *)
Fixpoint round_robin_rounds (rounds : nat) (spaces : list (Z * list Z))
  : list (Z * Z) :=
  match rounds with
  | O => []
  | S rounds' =>
      omap (fun sp : Z * list Z =>
              match sp.2 with
              | x :: _ => Some (sp.1, x)
              | [] => None
              end) spaces
      ++ round_robin_rounds rounds'
           (omap (fun sp : Z * list Z =>
                    match sp.2 with
                    | _ :: rest => Some (sp.1, rest)
                    | [] => None
                    end) spaces)
  end.

Definition round_robin (spaces : list (list Z)) : list (Z * Z) :=
  round_robin_rounds (length (concat spaces))
    (imap (fun ind l => (Z.of_nat ind, l)) spaces).

(** Three targets with the seed spaces [1,2,3], [7] and [8,9]. *)
Definition three_targets : list Permuter :=
  [sample_permuter "a" 100 false (SeedList [1; 2; 3]);
   sample_permuter "b" 100 false (SeedList [7]);
   sample_permuter "c" 100 false (SeedList [8; 9])].

(** Under a forced seed [fs], an iterator in rotation belongs to a
    permuter [j]: it repeats [fs] when the permuter is randomized, and
    it is the list [[fs]], whole or used up, when it is not. *)
Definition forced_iterator (fs : Z) (ps : list Permuter) (it : PairIter) : Prop :=
  exists j p,
    ps !! j = Some p /\ perm_ind it = Z.of_nat j
    /\ (seeds it = (if is_random p then SeedRepeat fs else SeedList [fs])
        \/ (is_random p = false /\ seeds it = SeedList [])).

(** The states of the generator under a forced seed: every iterator is
    as above, no permuter has two iterators, and the iterator of every
    randomized permuter is in rotation. *)
Definition forced_state (fs : Z) (ps : list Permuter) (st : CycleState) : Prop :=
  Forall (forced_iterator fs ps) (iterators st)
  /\ NoDup (perm_ind <$> iterators st)
  /\ (forall j p, ps !! j = Some p -> is_random p = true ->
        {| perm_ind := Z.of_nat j; seeds := SeedRepeat fs |} ∈ iterators st).

(** How many of the items belong to permuter [j]. *)
Definition emitted (j : nat) (items : list (Z * Z)) : nat :=
  length (filter (fun item : Z * Z => item.1 = Z.of_nat j) items).

(** The number of [Finished] acknowledgements among the results of
    [feedback_queue.get()]. *)
Fixpoint acks `{ProfilerOps} (events : list GetEvent) : nat :=
  match events with
  | [] => O
  | Receives FbFinished :: events' => S (acks events')
  | _ :: events' => acks events'
  end.

(** A call of [get] that returns one of the two sentinels. *)
Definition is_sentinel `{ProfilerOps} (e : GetEvent) : Prop :=
  e = Receives FbFinished \/ e = Receives FbNeedMoreWork.

(** The locals of [run_inner] with two active workers and a generator
    that has ended. *)
Definition sample_coordinator : Coordinator :=
  {| context := sample_context three_targets; active_workers := 2;
     found_zero := false; perm_seed_iter := None; task_queue := [] |}.

(** The seeds that a list iterator still holds. *)
Definition seeds_left (it : PairIter) : list Z :=
  match seeds it with
  | SeedList l => l
  | _ => []
  end.

(** A state of the generator in which every iterator is a list and no
    permuter has two iterators. *)
Definition finite_state (st : CycleState) : Prop :=
  Forall (fun it => exists l, seeds it = SeedList l) (iterators st)
  /\ NoDup (perm_ind <$> iterators st).

(** The number of seeds still to come. *)
Definition total_left (st : CycleState) : nat :=
  sum_list_with (fun it => length (seeds_left it)) (iterators st).

(** [l] is what permuter [j] still has to give: the list of its
    iterator, or nothing when it has no iterator in rotation. *)
Definition queue_of (st : CycleState) (j : Z) (l : list Z) : Prop :=
  (exists k, iterators st !! k = Some {| perm_ind := j; seeds := SeedList l |})
  \/ (l = [] /\ forall it, it ∈ iterators st -> perm_ind it <> j).

(** The seeds that the items give to permuter [j], in their order. *)
Definition seeds_of (j : Z) (items : list (Z * Z)) : list Z :=
  (filter (fun item : Z * Z => item.1 = j) items).*2.

(** [p'] is a later state of the permuter [p]: the best score has not
    gone up, no hash has been forgotten, and nothing else differs. *)
Definition later_permuter (p p' : Permuter) : Prop :=
  best_score p' <= best_score p
  /\ hashes p ⊆ hashes p'
  /\ set_hashes (set_best_score p' (best_score p)) (hashes p) = p.

(** [c'] is a later state of the context [c]: the options are the same,
    the counters have gone up, [errors] by no more than [iteration], and
    the permuters are later states of the same permuters. *)
Definition later_context `{ProfilerOps} (c c' : EvalContext) : Prop :=
  options c' = options c
  /\ 0 <= errors c' - errors c <= iteration c' - iteration c
  /\ Forall2 later_permuter (permuters c) (permuters c').

(** The feedback with which the worker answers an item that it has
    pulled; none for a task whose index names no permuter. *)
Definition respond `{ProfilerOps} (try_eval_candidate : Permuter -> Z -> EvalResult)
    (permuters : list Permuter) (item : option Task) : option Feedback :=
  match item with
  | None => Some FbNeedMoreWork
  | Some TaskFinished => Some FbFinished
  | Some (TaskWork permuter_index seed) =>
      match index permuters permuter_index with
      | Ret permuter => Some (FbResult permuter_index (try_eval_candidate permuter seed))
      | _ => None
      end
  end.

(** What the events of a script put on the task queue. *)
Fixpoint puts_of (script : list WorkerEvent) : list (option Task) :=
  match script with
  | [] => []
  | Puts items :: script' => items ++ puts_of script'
  | CtrlC :: script' => puts_of script'
  | CtrlCAtWork items :: script' => items ++ puts_of script'
  end.

(** The tasks for the next [n] items of the generator. *)
Definition work_items (it : option CycleState) (n : nat) : list Task :=
  match it with
  | Some st => (fun item : Z * Z => TaskWork item.1 item.2) <$> (cycle_take n st).1
  | None => []
  end.

(** The number of calls of [get] that returned something other than
    [Finished]. *)
Fixpoint requests `{ProfilerOps} (events : list GetEvent) : nat :=
  match events with
  | [] => O
  | Receives FbFinished :: events' => requests events'
  | Receives _ :: events' => S (requests events')
  | Interrupted :: events' => requests events'
  end.

(** A result of score 0 coming out of [get]. *)
Definition zero_result `{ProfilerOps} (e : GetEvent) : Prop :=
  exists permuter_index r,
    e = Receives (FbResult permuter_index (Scored r)) /\ score r = Some 0.

(** The locals of [run_inner] at the start of its first loop, with one
    worker and the three targets. *)
Definition feeding_coordinator : Coordinator :=
  {| context := sample_context three_targets; active_workers := 1;
     found_zero := false; perm_seed_iter := Some (cycle_seeds three_targets None);
     task_queue := [] |}.

(** The same after one task has gone out and the worker has finished. *)
Definition fed_coordinator : Coordinator :=
  {| context := sample_context three_targets; active_workers := 0;
     found_zero := false;
     perm_seed_iter :=
       Some {| iterators :=
                 [{| perm_ind := 0; seeds := SeedList [2; 3] |};
                  {| perm_ind := 1; seeds := SeedList [7] |};
                  {| perm_ind := 2; seeds := SeedList [8; 9] |}];
               i := 1 |};
     task_queue := [TaskWork 0 1] |}.

(** The locals of [run_inner] at the start of its second loop under
    [stop_on_zero], a zero score found and one worker still active. *)
Definition stopping_coordinator : Coordinator :=
  {| context :=
       {| options :=
            {| directories := ["a"; "b"; "c"]; show_errors := false;
               show_timings := false; print_diffs := false;
               stack_differences := false; abort_exceptions := false;
               stop_on_zero := true; force_seed := None; threads := 2;
               use_network := false |};
          iteration := 4; errors := 0; overall_profiler := tt;
          permuters := three_targets |};
     active_workers := 1; found_zero := true; perm_seed_iter := None;
     task_queue := [TaskFinished] |}.

(** How many of the permuters have the function name [name]. *)
Definition name_count (ps : list Permuter) (name : string) : Z :=
  Z.of_nat (length (filter (fun p => fn_name p = name) ps)).

(** The permuter with its directory added to its unique name when it
    shares its function name with another permuter of the list. *)
Definition with_directory (ps : list Permuter) (p : Permuter) : Permuter :=
  if 1 <? name_count ps (fn_name p)
  then set_unique_name p (unique_name p +:+ " (" +:+ dir p +:+ ")")
  else p.

(** Every iterator in rotation belongs to one of the first [n]
    permuters. *)
Definition valid_indices (n : nat) (st : CycleState) : Prop :=
  Forall (fun it => exists j : nat, perm_ind it = Z.of_nat j /\ (j < n)%nat)
    (iterators st).

(** How the read of a key ends on the standard input of [w]. *)
Definition key_press (w : World) : outcome unit :=
  match stdin w with
  | [] => Diverge
  | Line _ :: _ => Ret tt
  | EndOfInput :: _ => Raise EOFError
  | StdinCtrlC :: _ => Raise KeyboardInterrupt
  end.

(** A seed option made of decimal digits, minus signs and commas only:
    on the parts of such a string [int] is Python's [int] (up to the
    interpreter's limit of 4300 digits). *)
Definition plain_char (c : ascii) : bool :=
  let n := nat_of_ascii c in
  ((48 <=? n) && (n <=? 57))%nat || Ascii.eqb c "-" || Ascii.eqb c ",".

Fixpoint plain (s : string) : bool :=
  match s with
  | EmptyString => true
  | String c s' => plain_char c && plain s'
  end.

(* ================================================================= *)
(** * Facts *)

(** ** Python built-ins *)

Module PyFacts.

Lemma split_lacks c s : lacks c s = true -> split c s = [s].
Proof.
  induction s as [|a s IH]; simpl; [done|].
  intros [Ha Hs]%andb_prop. apply negb_true_iff in Ha.
  rewrite Ha, (IH Hs). done.
Qed.

Lemma split_app c s t :
  lacks c s = true -> split c (s +:+ String c t) = s :: split c t.
Proof.
  induction s as [|a s IH]; simpl.
  - intros _. by rewrite Ascii.eqb_refl.
  - intros [Ha Hs]%andb_prop. apply negb_true_iff in Ha.
    rewrite Ha, (IH Hs). done.
Qed.

Lemma lacks_app c s t :
  lacks c s = true -> lacks c t = true -> lacks c (s +:+ t) = true.
Proof.
  induction s as [|a s IH]; simpl; [done|].
  intros [Ha Hs]%andb_prop Ht. rewrite Ha. simpl. auto.
Qed.

Lemma uint_lacks_comma d : lacks ","%char (NilEmpty.string_of_uint d) = true.
Proof. induction d; simpl; auto. Qed.

Lemma str_lacks_comma z : lacks ","%char (str z) = true.
Proof.
  unfold str. destruct (Z.to_int z) as [d|d]; simpl.
  - destruct d; simpl; auto using uint_lacks_comma.
  - destruct d; simpl; auto using uint_lacks_comma.
Qed.

Lemma to_int_proper z : Z.to_int z <> Decimal.Pos Decimal.Nil /\ Z.to_int z <> Decimal.Neg Decimal.Nil.
Proof.
  destruct z as [|p|p]; simpl; split; try discriminate.
  - intros [= E]. by apply (DecimalPos.Unsigned.to_uint_nonnil p).
  - intros [= E]. by apply (DecimalPos.Unsigned.to_uint_nonnil p).
Qed.

(** [int(str(z)) == z] *)
Lemma int_str z : int (str z) = Ret z.
Proof.
  unfold int, str. destruct (to_int_proper z) as [H1 H2].
  rewrite (NilZero.isi _ H1 H2). by rewrite DecimalZ.of_to.
Qed.

Lemma str_inj a b : str a = str b -> a = b.
Proof.
  intros E. pose proof (int_str a) as Ha. rewrite E, int_str in Ha. congruence.
Qed.

Lemma str_nonempty z : str z <> EmptyString.
Proof.
  intros E. pose proof (int_str z) as Hz. rewrite E in Hz. discriminate.
Qed.

Lemma app_nonempty_l s t : s <> EmptyString -> s +:+ t <> EmptyString.
Proof. destruct s; [done|discriminate]. Qed.

Lemma app_inj_l s a b : s +:+ a = s +:+ b -> a = b.
Proof. induction s as [|c s IH]; simpl; [done|]. intros [= E]. auto. Qed.

Lemma path_join_inj a b b' : path_join a b = path_join a b' -> b = b'.
Proof.
  unfold path_join. destruct (String.eqb a ""); [done|].
  destruct (ends_with_slash a); intros E.
  - by apply app_inj_l in E.
  - apply app_inj_l in E. by apply (app_inj_l "/") in E.
Qed.

End PyFacts.

(** ** The seed option and the reproduction instruction *)

Lemma parse_single b : parse_force_seed (Some (str b)) = Ret (Some b, Some 0).
Proof.
  unfold parse_force_seed.
  destruct (String.eqb_spec (str b) "") as [E|_]; [by apply PyFacts.str_nonempty in E|].
  rewrite (PyFacts.split_lacks _ _ (PyFacts.str_lacks_comma b)). simpl.
  rewrite PyFacts.int_str. reflexivity.
Qed.

Lemma parse_pair a b :
  parse_force_seed (Some (str a +:+ "," +:+ str b)) = Ret (Some b, Some a).
Proof.
  unfold parse_force_seed.
  destruct (String.eqb_spec (str a +:+ "," +:+ str b) "") as [E|_].
  { by apply PyFacts.app_nonempty_l in E; [|apply PyFacts.str_nonempty]. }
  change ("," +:+ str b) with (String ","%char (str b)).
  rewrite (PyFacts.split_app _ _ _ (PyFacts.str_lacks_comma a)).
  rewrite (PyFacts.split_lacks _ _ (PyFacts.str_lacks_comma b)). simpl.
  rewrite !PyFacts.int_str. reflexivity.
Qed.

(** C10. For every seed pair [(a, b)] carried by an [EvalError],
    [post_score] prints the header, the exception text and then the
    reproduction instruction with the string ["b"] when [a = 0] and
    ["a,b"] otherwise; parsing that string as the seed option of
    [run_inner] gives [force_seed = a] and [force_rng_seed = b]. *)
Theorem seed_option_inverts_reproduction `{ProfilerOps}
    (context : EvalContext) (permuter : Permuter) (exc : string) (a b : Z)
    (w : World) :
  let shown := if bool_decide (a = 0) then str b else str a +:+ "," +:+ str b in
  stdout (fst (post_score context permuter
                 (Failed {| exc_str := exc; seed := Some (a, b) |}) w))
  = (stdout w ++
      [(NL +:+ "[" +:+ unique_name permuter +:+ "] internal permuter failure.") +:+ NL;
       exc +:+ NL;
       ("To reproduce the failure, rerun with: --seed " +:+ shown) +:+ NL])%list
  /\ parse_force_seed (Some shown) = Ret (Some b, Some a).
Proof.
  intros shown. split.
  - unfold post_score, io_bind, print, print_end, sys_exit, io_ret. simpl.
    subst shown. rewrite <- !app_assoc. simpl.
    destruct (abort_exceptions (options context)); simpl;
      repeat case_bool_decide; try congruence; reflexivity.
  - subst shown. case_bool_decide as Ha.
    + subst a. apply parse_single.
    + apply parse_pair.
Qed.

(** ** The aggregator on an [EvalError] *)

(** C7, as the spec states it, fails: an [EvalError] that is processed
    (errors are not fatal) leaves [context.errors] at its old value. *)
Lemma eval_error_leaves_error_counter :
  exists c p,
    snd (post_score (sample_context [sample_permuter "a" 100 false (SeedList [1])])
           (sample_permuter "a" 100 false (SeedList [1]))
           (Failed {| exc_str := "Traceback"; seed := Some (0, 7) |}) sample_world)
    = Ret (c, p, false)
    /\ errors c = 0
    /\ errors c
       <> errors (sample_context [sample_permuter "a" 100 false (SeedList [1])]) + 1.
Proof. eexists _, _. split; [reflexivity|]. split; [reflexivity|]. simpl. lia. Qed.

(** C7, amended. Every [EvalError] is printed once: the header with the
    permuter's name, the exception text and, when a seed is known, the
    reproduction instruction (the second component alone when the first
    is 0, otherwise both with a comma).  Nothing else changes outside the
    process, and the context (with its error counter) and the permuter
    are as before.  When errors are not fatal [post_score] returns
    [False]; otherwise it exits with status 1. *)
Theorem eval_error_printed_once `{ProfilerOps}
    (context : EvalContext) (permuter : Permuter) (e : EvalError) (w : World) :
  let w' := fst (post_score context permuter (Failed e) w) in
  stdout w'
  = (stdout w ++
     [(NL +:+ "[" +:+ unique_name permuter +:+ "] internal permuter failure.") +:+ NL;
      exc_str e +:+ NL] ++
     match seed e with
     | Some (a, b) =>
         [("To reproduce the failure, rerun with: --seed "
           +:+ (if bool_decide (a = 0) then str b else str a +:+ "," +:+ str b))
          +:+ NL]
     | None => []
     end)%list
  /\ stderr w' = stderr w /\ dirs w' = dirs w
  /\ snd (post_score context permuter (Failed e) w)
     = if abort_exceptions (options context) then Exit 1
       else Ret (context, permuter, false).
Proof.
  unfold post_score, io_bind, print, print_end, sys_exit, io_ret.
  destruct e as [exc [[a b]|]]; simpl;
    destruct (abort_exceptions (options context)); simpl;
    rewrite <- ?app_assoc; simpl;
    repeat case_bool_decide; try congruence; auto.
Qed.

(** ** [write_candidate] makes one new directory *)

Section AggregatorFacts.
Context `{ProfilerOps}.

Lemma output_dir_name_inj perm sc a b :
  output_dir_name perm sc a = output_dir_name perm sc b -> a = b.
Proof.
  unfold output_dir_name. intros E%PyFacts.path_join_inj.
  apply (PyFacts.app_inj_l "output-") in E.
  apply PyFacts.app_inj_l in E.
  apply (PyFacts.app_inj_l "-") in E.
  by apply PyFacts.str_inj.
Qed.

(** Among [size m + 1] counters one names a directory that is not in
    [m]. *)
Lemma free_counter (m : gmap string (gmap string string)) perm sc :
  exists k, (1 <= k <= S (size m))%nat
            /\ m !! output_dir_name perm sc (Z.of_nat k) = None.
Proof.
  set (name := fun k : nat => output_dir_name perm sc (Z.of_nat k)).
  set (l := name <$> seq 1 (S (size m))).
  destruct (decide (Forall (fun d => is_Some (m !! d)) l)) as [Hall|Hnot].
  - exfalso.
    assert (NoDup l) as Hnd.
    { apply NoDup_fmap_2; [|apply NoDup_seq].
      intros a b E. apply output_dir_name_inj in E. lia. }
    assert (list_to_set l ⊆ dom m) as Hsub.
    { intros d Hd. apply elem_of_list_to_set in Hd.
      apply elem_of_dom. rewrite Forall_forall in Hall. by apply Hall. }
    apply subseteq_size in Hsub.
    rewrite size_list_to_set, size_dom in Hsub by done.
    unfold l in Hsub. rewrite length_fmap, length_seq in Hsub. lia.
  - apply not_Forall_Exists in Hnot; [|apply _].
    apply Exists_exists in Hnot as (d & Hd & Hfree).
    apply list_elem_of_fmap in Hd as (k & -> & Hk).
    apply elem_of_seq in Hk. exists k. split; [lia|].
    simpl in Hfree. by apply eq_None_not_Some.
Qed.

Lemma mkdir_loop_finds perm sc fuel : forall ctr w,
  (exists k, (1 <= k <= fuel)%nat
             /\ dirs w !! output_dir_name perm sc (ctr + Z.of_nat k) = None) ->
  exists d, dirs w !! d = None
            /\ mkdir_loop fuel perm sc ctr w
               = (set_dirs w (<[d := ∅]> (dirs w)), Ret d).
Proof.
  induction fuel as [|fuel IH]; intros ctr w (k & Hk & Hfree); [lia|].
  simpl. unfold os_mkdir.
  destruct (dirs w !! output_dir_name perm sc (ctr + 1)) eqn:E.
  - apply IH. exists (k - 1)%nat.
    assert (k <> 1%nat) by (intros ->; change (Z.of_nat 1) with 1 in Hfree; congruence).
    split; [lia|]. replace (ctr + 1 + Z.of_nat (k - 1)) with (ctr + Z.of_nat k) by lia.
    done.
  - eauto.
Qed.

Lemma io_bind_ret {A B} (m : IO A) (k : A -> IO B) w w' a :
  m w = (w', Ret a) -> io_bind m k w = k a w'.
Proof. unfold io_bind. by intros ->. Qed.

Lemma create_file_fresh d name text w fs :
  dirs w !! d = Some fs -> fs !! name = None ->
  create_file d name text w
  = (set_dirs w (<[d := <[name := text]> fs]> (dirs w)), Ret tt).
Proof. unfold create_file. intros -> . simpl. by intros ->. Qed.

(** [write_candidate] always finds a counter, makes the directory, and
    then either fills it or stops at its assertion on the source. *)
Lemma write_candidate_new_dir perm result w :
  exists d fs,
    dirs w !! d = None
    /\ dirs (fst (write_candidate perm result w)) = <[d := fs]> (dirs w)
    /\ stderr (fst (write_candidate perm result w)) = stderr w
    /\ snd (write_candidate perm result w)
       = match source result with
         | Some _ => Ret tt
         | None => Raise (AssertionError "need_to_send_source is wrong!")
         end.
Proof.
  destruct (mkdir_loop_finds perm (score result) (S (size (dirs w))) 0 w)
    as (d & Hd & Hloop).
  { destruct (free_counter (dirs w) perm (score result)) as (k & Hk & Hfree).
    exists k. by rewrite Z.add_0_l. }
  unfold write_candidate.
  rewrite (io_bind_ret get_dirs _ w w (dirs w)) by done.
  rewrite (io_bind_ret _ _ _ _ _ Hloop).
  destruct (source result) as [src|]; simpl.
  - rewrite (io_bind_ret _ _ _ _ src) by reflexivity.
    erewrite io_bind_ret; cycle 1.
    { apply create_file_fresh; [apply lookup_insert_eq|apply lookup_empty]. }
    erewrite io_bind_ret; cycle 1.
    { apply create_file_fresh; [apply lookup_insert_eq|].
      by rewrite lookup_insert_ne, lookup_empty. }
    erewrite io_bind_ret; cycle 1.
    { apply create_file_fresh; [apply lookup_insert_eq|].
      by rewrite !lookup_insert_ne, lookup_empty. }
    erewrite io_bind_ret; cycle 1.
    { apply create_file_fresh; [apply lookup_insert_eq|].
      by rewrite !lookup_insert_ne, lookup_empty. }
    simpl. rewrite !insert_insert_eq. eauto 10.
  - exists d, ∅. auto.
Qed.

(** ** [post_score] on a scored result *)

#[local] Arguments write_candidate : simpl never.

(** The permuter after a result that passes the test of the [if]. *)
Lemma post_score_new context permuter result s h w :
  score result = Some s -> hash result = Some h ->
  print_diffs (options context) = false ->
  s <= base_score permuter -> h ∉ hashes permuter ->
  exists d fs context',
    dirs w !! d = None
    /\ dirs (fst (post_score context permuter (Scored result) w))
       = <[d := fs]> (dirs w)
    /\ iteration context' = iteration context + 1
    /\ errors context' = errors context
    /\ options context' = options context
    /\ snd (post_score context permuter (Scored result) w)
       = match source result with
         | Some _ =>
             Ret (context',
                  set_best_score
                    (if bool_decide (s ≠ 0)
                     then set_hashes permuter ({[h]} ∪ hashes permuter)
                     else permuter)
                    (Z.min (best_score permuter) s),
                  bool_decide (s = 0))
         | None => Raise (AssertionError "need_to_send_source is wrong!")
         end.
Proof.
  intros Hs Hh Hsrc Hle Hnew.
  apply Z.leb_le in Hle.
  assert (forall b, best_score (if b : bool
                                then set_hashes permuter ({[h]} ∪ hashes permuter)
                                else permuter) = best_score permuter) as Hb
    by (by intros []).
  unfold post_score. rewrite Hs, Hh, Hsrc.
    simpl; rewrite Hle, bool_decide_eq_false_2 by done; simpl; rewrite Hb;
    set (p1 := if bool_decide (s ≠ 0) then _ else _);
    set (p2 := set_best_score _ _);
    set (ctx' := set_counters _ _ _ _);
    unfold io_bind, print, print_end, when, io_ret; simpl;
    (destruct (s <? best_score permuter);
     [|destruct (s =? best_score permuter); [|destruct (s <? base_score p1)]]);
    (match goal with
     | |- context [write_candidate p2 result ?W] =>
         destruct (write_candidate_new_dir p2 result W) as (d & fs & Hd & Hdirs & _ & Hres);
         destruct (write_candidate p2 result W) as [w2 o]
     end;
     simpl in Hd, Hdirs, Hres; subst o; exists d, fs, ctx';
     destruct (source result); simpl; auto 10;
     repeat split; try done;
     do 2 f_equal; apply bool_decide_ext; split; congruence).
Qed.

(** A result that fails the test of the [if] only moves the counters
    and the status line. *)
Lemma post_score_old context permuter result s h w :
  score result = Some s -> hash result = Some h ->
  print_diffs (options context) = false ->
  ~ (s <= base_score permuter /\ h ∉ hashes permuter) ->
  exists context',
    dirs (fst (post_score context permuter (Scored result) w)) = dirs w
    /\ iteration context' = iteration context + 1
    /\ errors context' = errors context
    /\ options context' = options context
    /\ snd (post_score context permuter (Scored result) w)
       = Ret (context', permuter, bool_decide (s = 0)).
Proof.
  intros Hs Hh Hsrc Hnot.
  assert ((s <=? base_score permuter) && negb (bool_decide (h ∈ hashes permuter))
          = false) as Hif.
  { apply andb_false_iff. destruct (Z.leb_spec s (base_score permuter)); [|by left].
    right. apply negb_false_iff, bool_decide_eq_true.
    destruct (decide (h ∈ hashes permuter)); [done|]. exfalso. auto. }
  unfold post_score. rewrite Hs, Hh, Hsrc.
    simpl; rewrite Hif;
    set (ctx' := set_counters _ _ _ _);
    unfold io_bind, print, print_end, when, io_ret; simpl;
    exists ctx'; repeat split; try done;
    do 2 f_equal; apply bool_decide_ext; split; congruence.
Qed.


End AggregatorFacts.

(** ** Persistence and the dedup set *)

(** C1, as the spec states it, fails: a zero score does not override
    the dedup test.  After a result with score 5 and hash ["h"], a
    result with score 0 and the same hash satisfies
    [score <= base_score] and [score == 0], and nothing is written. *)
Lemma zero_score_with_seen_hash_not_written :
  exists w1 ctx1 p1,
    post_score (sample_context [sample_permuter "a" 100 false (SeedList [1])])
      (sample_permuter "a" 100 false (SeedList [1])) (scored 5 "h") sample_world
    = (w1, Ret (ctx1, p1, false))
    /\ (0 <= base_score p1 /\ ("h" ∉ hashes p1 \/ 0 = 0))
    /\ dirs (fst (post_score ctx1 p1 (scored 0 "h") w1)) = dirs w1
    /\ size (dirs w1) = 1%nat.
Proof.
  eexists _, _, _. split; [vm_compute; reflexivity|].
  split; [split; [vm_compute; discriminate|by right]|].
  split; vm_compute; reflexivity.
Qed.

(** C1, amended. For a scored result with score [s] and hash [h],
    processed with [print_diffs] off (so that no key press is waited
    for) and carrying its source when it passes the test below,
    [post_score] makes a new output directory exactly when
    [s <= base_score] and [h] is not in the dedup set; otherwise it
    leaves the directories alone.  It returns, and the dedup set it
    leaves is the old one with [h] added when the result passed that
    test and [s] is not 0, and the old one otherwise: [h] is only added
    when it was absent, and never for a zero score. *)
Theorem new_result_written_and_recorded `{ProfilerOps}
    (context : EvalContext) (permuter : Permuter) (result : CandidateResult)
    (s : Z) (h : string) (w : World) :
  score result = Some s -> hash result = Some h ->
  print_diffs (options context) = false ->
  (s <= base_score permuter /\ h ∉ hashes permuter -> is_Some (source result)) ->
  let w' := fst (post_score context permuter (Scored result) w) in
  ((exists d fs, dirs w !! d = None /\ dirs w' = <[d := fs]> (dirs w))
   <-> (s <= base_score permuter /\ h ∉ hashes permuter))
  /\ (~ (s <= base_score permuter /\ h ∉ hashes permuter) -> dirs w' = dirs w)
  /\ exists context' permuter',
       snd (post_score context permuter (Scored result) w)
       = Ret (context', permuter', bool_decide (s = 0))
       /\ hashes permuter'
          = (if bool_decide (s <= base_score permuter /\ (h ∉ hashes permuter) /\ s ≠ 0)
             then {[h]} ∪ hashes permuter else hashes permuter)
       /\ (s = 0 -> hashes permuter' = hashes permuter).
Proof.
  intros Hs Hh Hdiffs Hsrc w'.
  destruct (decide (s <= base_score permuter /\ h ∉ hashes permuter)) as [[Hle Hnew]|Hold].
  - destruct (post_score_new context permuter result s h w Hs Hh Hdiffs Hle Hnew)
      as (d & fs & ctx' & Hd & Hdirs & _ & _ & _ & Hres).
    destruct (Hsrc (conj Hle Hnew)) as [src Esrc].
    rewrite Esrc in Hres.
    split; [split; [done|eauto]|]. split; [tauto|].
    eexists _, _. split; [exact Hres|].
    case_bool_decide as Hz; simpl.
    + rewrite bool_decide_eq_true_2 by tauto. split; [done|lia].
    + rewrite bool_decide_eq_false_2 by tauto. done.
  - destruct (post_score_old context permuter result s h w Hs Hh Hdiffs Hold)
      as (ctx' & Hdirs & _ & _ & _ & Hres).
    split; [split; [|tauto]|].
    { intros (d & fs & Hd & Hins). exfalso. fold w' in Hdirs.
      rewrite Hdirs in Hins. rewrite Hins, lookup_insert_eq in Hd. discriminate. }
    split; [done|].
    eexists _, _. split; [exact Hres|].
    rewrite bool_decide_eq_false_2 by tauto. done.
Qed.

Lemma new_result_written_and_recorded_witness :
  ((exists d fs,
       dirs sample_world !! d = None
       /\ dirs (fst (post_score (sample_context [sample_permuter "a" 100 false (SeedList [1])])
                       (sample_permuter "a" 100 false (SeedList [1]))
                       (scored 5 "h") sample_world))
          = <[d := fs]> (dirs sample_world))
   <-> (5 <= 100 /\ "h" ∉ (∅ : gset string)))
  /\ exists context' permuter',
       snd (post_score (sample_context [sample_permuter "a" 100 false (SeedList [1])])
              (sample_permuter "a" 100 false (SeedList [1]))
              (scored 5 "h") sample_world)
       = Ret (context', permuter', false)
       /\ hashes permuter' = {[ "h" ]} ∪ ∅.
Proof.
  destruct (new_result_written_and_recorded
              (sample_context [sample_permuter "a" 100 false (SeedList [1])])
              (sample_permuter "a" 100 false (SeedList [1]))
              (sample_result 5 "h") 5 "h" sample_world)
    as (Hiff & _ & ctx' & p' & Hres & Hhashes & _).
  - reflexivity.
  - reflexivity.
  - reflexivity.
  - intros _. eexists. reflexivity.
  - split; [exact Hiff|]. exists ctx', p'. split; [exact Hres|].
    rewrite Hhashes, bool_decide_eq_true_2; [reflexivity|]. simpl.
    split; [lia|]. split; [set_solver|lia].
Defined.

(** ** The best score over a sequence of results *)




Lemma min_score_cons base a l : min_score base (a :: l) = min_score (Z.min base a) l.
Proof. reflexivity. Qed.

Section Sequence.
Context `{ProfilerOps}.




End Sequence.




(** ** The seed cycle generator *)

Section CycleFacts.

(** The three ways through the body of the loop. *)
Lemma loop_body_cases st :
  (iterators st = [] /\ loop_body st = LoopEnd)
  \/ (exists k it,
        iterators st !! k = Some it /\ pair_next it = None
        /\ k = Z.to_nat (i st `mod` Z.of_nat (length (iterators st)))
        /\ loop_body st
           = Dropped {| iterators := delete k (iterators st); i := Z.of_nat k - 1 |})
  \/ (exists k it item rest,
        iterators st !! k = Some it /\ pair_next it = Some (item, rest)
        /\ k = Z.to_nat (i st `mod` Z.of_nat (length (iterators st)))
        /\ loop_body st
           = Yielded item {| iterators := <[k := rest]> (iterators st);
                             i := Z.of_nat k + 1 |}).
Proof.
  unfold loop_body. destruct (iterators st) as [|it0 its] eqn:E; [by left|right].
  set (n := Z.of_nat (length (it0 :: its))).
  assert (0 < n) as Hn by (unfold n; simpl; lia).
  pose proof (Z.mod_pos_bound (i st) n Hn) as Hk.
  set (k := Z.to_nat (i st `mod` n)).
  assert (k < length (it0 :: its))%nat as Hlt by (unfold k, n in *; lia).
  destruct (lookup_lt_is_Some_2 _ _ Hlt) as [it Hit].
  assert (nth k (it0 :: its) it0 = it) as Hnth.
  { apply nth_lookup_Some with (d := it0) in Hit. exact Hit. }
  fold n. fold k. rewrite Hnth.
  assert (Z.of_nat k = i st `mod` n) as Hkz by (unfold k; lia).
  rewrite <- Hkz.
  destruct (pair_next it) as [[item rest]|] eqn:Hnext.
  - right. exists k, it, item, rest. auto.
  - left. exists k, it. auto.
Qed.

(** A pass that drops an iterator makes the list shorter, so the fuel
    of [cycle_next] is never used up. *)
Lemma gen_resume_fuel fuel : forall st,
  (length (iterators st) < fuel)%nat -> gen_resume fuel st <> GenFuel.
Proof.
  induction fuel as [|fuel IH]; intros st Hlen; [lia|]. simpl.
  destruct (loop_body_cases st) as [[_ ->]|[(k & it & Hk & _ & _ & ->)|(k & it & item & rest & _ & _ & _ & ->)]];
    try discriminate.
  apply IH. simpl. pose proof (lookup_lt_Some _ _ _ Hk).
  rewrite length_delete by eauto. lia.
Qed.

Lemma cycle_next_total st : cycle_next st <> GenFuel.
Proof. apply gen_resume_fuel. lia. Qed.

(** What [next] gives, for a property of the state that the dropping
    passes keep: the pass that yields starts from a state with the
    property. *)
Lemma gen_resume_invariant (P : CycleState -> Prop) :
  (forall st st', P st -> loop_body st = Dropped st' -> P st') ->
  forall fuel st, P st ->
    match gen_resume fuel st with
    | GenYield item st' => exists st1, P st1 /\ loop_body st1 = Yielded item st'
    | GenStop => exists st1, P st1 /\ iterators st1 = []
    | GenFuel => True
    end.
Proof.
  intros Hdrop. induction fuel as [|fuel IH]; intros st HP; simpl; [done|].
  destruct (loop_body st) as [item st'|st'|] eqn:E.
  - eauto.
  - apply IH. eauto.
  - exists st. split; [done|].
    destruct (loop_body_cases st) as [[? _]|[(k & it & _ & _ & _ & E')|(k & it & item & rest & _ & _ & _ & E')]];
      [done|congruence|congruence].
Qed.

End CycleFacts.

(** C5. The code does not continue from the rotation position of the
    iterator it removes.  With the seed spaces [1,2,3], [7] and [8,9]
    the first four pairs are (0,1), (1,7), (2,8), (0,2); the next pass
    finds the iterator of target 1 exhausted at position 1, removes it
    and sets [i] to 0, so the next pair is (0,3), from the iterator
    before the removed one, which was visited last; the iterator that
    followed it (target 2) has to wait. *)
Theorem drop_steps_back_to_previous_iterator :
  exists st4 st5 st6,
    cycle_take 4 (cycle_seeds three_targets None)
    = ([(0, 1); (1, 7); (2, 8); (0, 2)], Some st4)
    /\ perm_ind <$> iterators st4 = [0; 1; 2] /\ i st4 = 1
    /\ loop_body st4 = Dropped st5
    /\ perm_ind <$> iterators st5 = [0; 2] /\ i st5 = 0
    /\ cycle_next st4 = GenYield (0, 3) st6
    /\ fst (cycle_take 6 (cycle_seeds three_targets None))
       = [(0, 1); (1, 7); (2, 8); (0, 2); (0, 3); (2, 9)].
Proof.
  eexists _, _, _.
  split; [vm_compute; reflexivity|].
  split; [reflexivity|]. split; [reflexivity|].
  split; [vm_compute; reflexivity|].
  split; [reflexivity|]. split; [reflexivity|].
  split; vm_compute; reflexivity.
Qed.

(** C8. For the finite seed spaces [1,2,3], [7] and [8,9] the generator
    ends after 3 + 1 + 2 items and gives every pair once, but not in
    round-robin order: (0,3) comes before (2,9). *)
Theorem finite_cycle_leaves_round_robin :
  cycle_take 7 (cycle_seeds three_targets None)
  = ([(0, 1); (1, 7); (2, 8); (0, 2); (0, 3); (2, 9)], None)
  /\ round_robin [[1; 2; 3]; [7]; [8; 9]]
     = [(0, 1); (1, 7); (2, 8); (0, 2); (2, 9); (0, 3)]
  /\ fst (cycle_take 7 (cycle_seeds three_targets None))
     <> round_robin [[1; 2; 3]; [7]; [8; 9]]
  /\ fst (cycle_take 7 (cycle_seeds three_targets None))
     ≡ₚ round_robin [[1; 2; 3]; [7]; [8; 9]].
Proof.
  split; [vm_compute; reflexivity|].
  split; [vm_compute; reflexivity|].
  split; [vm_compute; discriminate|].
  change (fst (cycle_take 7 (cycle_seeds three_targets None)))
    with [(0, 1); (1, 7); (2, 8); (0, 2); (0, 3); (2, 9)].
  change (round_robin [[1; 2; 3]; [7]; [8; 9]])
    with [(0, 1); (1, 7); (2, 8); (0, 2); (2, 9); (0, 3)].
  do 4 apply perm_skip. apply perm_swap.
Qed.

(** ** The generator under a forced seed *)

Section ForcedSeed.
Variable fs : Z.
Variable ps : list Permuter.
Hypothesis fs_nonzero : fs <> 0.

Lemma forced_initial : forced_state fs ps (cycle_seeds ps (Some fs)).
Proof.
  unfold forced_state, cycle_seeds, make_iterators. cbn [iterators].
  assert ((fs =? 0) = false) as Hz by (by apply Z.eqb_neq).
  split; [|split].
  - apply Forall_lookup. intros k it Hk.
    rewrite list_lookup_imap in Hk.
    destruct (ps !! k) as [p|] eqn:E; [|done]. simpl in Hk. injection Hk as <-.
    exists k, p. unfold seed_iterator. simpl. rewrite Hz. auto.
  - apply NoDup_alt. intros a b x Ha Hb.
    rewrite list_lookup_fmap, list_lookup_imap in Ha, Hb.
    destruct (ps !! a); [|done]. destruct (ps !! b); [|done].
    simpl in Ha, Hb. injection Ha as <-. injection Hb as Hb. lia.
  - intros j p Hj Hr. apply list_elem_of_lookup. exists j.
    rewrite list_lookup_imap, Hj. unfold seed_iterator. simpl. by rewrite Hz, Hr.
Qed.

Lemma elem_of_delete_other {A} (l : list A) k m x :
  l !! m = Some x -> m <> k -> x ∈ delete k l.
Proof.
  intros Hm Hne. apply list_elem_of_lookup.
  destruct (decide (m < k)%nat).
  - exists m. by rewrite list_lookup_delete_lt.
  - exists (m - 1)%nat. rewrite list_lookup_delete_ge by lia.
    by replace (S (m - 1)) with m by lia.
Qed.

Lemma elem_of_insert_inv {A} (l : list A) k y x :
  x ∈ <[k := y]> l -> x = y \/ (exists m, m <> k /\ l !! m = Some x).
Proof.
  intros (m & Hm)%list_elem_of_lookup.
  apply list_lookup_insert_Some in Hm as [(-> & -> & _)|(Hne & Hm)]; [by left|].
  right. exists m. auto.
Qed.

Lemma forced_dropped st st' :
  forced_state fs ps st -> loop_body st = Dropped st' -> forced_state fs ps st'.
Proof.
  intros (Hall & Hnd & Hrand) Hbody.
  destruct (loop_body_cases st) as [[_ E]|[(k & it & Hk & Hnone & _ & E)|(k & it & item & rest & _ & _ & _ & E)]];
    rewrite E in Hbody; try discriminate.
  injection Hbody as <-. unfold forced_state. simpl.
  split; [by apply Forall_delete|]. split.
  - rewrite list_fmap_delete. eapply sublist_NoDup; [exact Hnd|apply sublist_delete].
  - intros j p Hj Hr. specialize (Hrand j p Hj Hr).
    apply list_elem_of_lookup in Hrand as [m Hm].
    apply (elem_of_delete_other _ k m); [done|].
    intros ->. rewrite Hk in Hm. injection Hm as ->. discriminate.
Qed.

(** A pass that yields gives the forced seed, for the permuter of the
    iterator at its position. *)
Lemma forced_yielded st item st' :
  forced_state fs ps st -> loop_body st = Yielded item st' ->
  exists k it rest,
    iterators st !! k = Some it
    /\ item = (perm_ind it, fs)
    /\ perm_ind rest = perm_ind it
    /\ (seeds it = SeedRepeat fs /\ rest = it
        \/ seeds it = SeedList [fs] /\ seeds rest = SeedList [])
    /\ iterators st' = <[k := rest]> (iterators st)
    /\ forced_state fs ps st'.
Proof.
  intros (Hall & Hnd & Hrand) Hbody.
  destruct (loop_body_cases st) as [[_ E]|[(k & it & _ & _ & _ & E)|(k & it & item' & rest & Hk & Hnext & _ & E)]];
    rewrite E in Hbody; try discriminate.
  injection Hbody as <- <-.
  pose proof (Forall_lookup_1 _ _ _ _ Hall Hk) as (j & p & Hj & Hind & Hseeds).
  assert (item' = (perm_ind it, fs) /\ perm_ind rest = perm_ind it
          /\ (seeds it = SeedRepeat fs /\ rest = it
              \/ seeds it = SeedList [fs] /\ seeds rest = SeedList [])
          /\ forced_iterator fs ps rest) as (Hitem & Hrest & Hcases & Hforced).
  { unfold pair_next in Hnext. destruct it as [ind sd]. simpl in *.
    destruct Hseeds as [Hs|[Hdet Hs]]; subst sd.
    - destruct (is_random p) eqn:Hr; simpl in Hnext; injection Hnext as <- <-; simpl.
      + split; [done|]. split; [done|]. split; [by left|].
        exists j, p. simpl. rewrite Hr. auto.
      + split; [done|]. split; [done|]. split; [by right|].
        exists j, p. simpl. auto.
    - simpl in Hnext. discriminate. }
  exists k, it, rest. simpl.
  split; [done|]. split; [done|]. split; [done|]. split; [done|]. split; [done|].
  unfold forced_state. simpl. split; [by apply Forall_insert|]. split.
  - rewrite list_fmap_insert, Hrest. rewrite list_insert_id; [done|].
    by rewrite list_lookup_fmap, Hk.
  - intros j' p' Hj' Hr'. specialize (Hrand j' p' Hj' Hr').
    apply list_elem_of_lookup in Hrand as [m Hm].
    destruct (decide (m = k)) as [->|Hne].
    + rewrite Hk in Hm. injection Hm as ->.
      destruct Hcases as [[_ ->]|[Hs _]]; [|simpl in Hs; discriminate].
      rewrite list_insert_id by done. apply list_elem_of_lookup. eauto.
    + apply list_elem_of_lookup. exists m. by rewrite list_lookup_insert_ne.
Qed.

End ForcedSeed.

Lemma cycle_next_invariant (P : CycleState -> Prop) :
  (forall st st', P st -> loop_body st = Dropped st' -> P st') ->
  forall st, P st ->
    match cycle_next st with
    | GenYield item st' => exists st1, P st1 /\ loop_body st1 = Yielded item st'
    | GenStop => exists st1, P st1 /\ iterators st1 = []
    | GenFuel => False
    end.
Proof.
  intros Hdrop st HP.
  pose proof (gen_resume_invariant P Hdrop (S (length (iterators st))) st HP) as Hinv.
  pose proof (cycle_next_total st) as Htot. unfold cycle_next in *.
  destruct (gen_resume _ st); done.
Qed.

Section ForcedRun.
Variable fs : Z.
Variable ps : list Permuter.

(** Every item is the forced seed; the generator goes on as long as a
    randomized permuter is there. *)
Lemma forced_take n : forall st,
  forced_state fs ps st ->
  Forall (fun item : Z * Z => item.2 = fs) (cycle_take n st).1
  /\ match (cycle_take n st).2 with
     | Some st' => forced_state fs ps st'
     | None => forall j p, ps !! j = Some p -> is_random p = false
     end.
Proof.
  induction n as [|n IH]; intros st Hst; simpl; [by split|].
  pose proof (cycle_next_invariant (forced_state fs ps) (forced_dropped fs ps) st Hst) as Hnext.
  destruct (cycle_next st) as [item st'| |]; [| |done].
  - destruct Hnext as (st1 & Hst1 & Hbody).
    destruct (forced_yielded fs ps st1 item st' Hst1 Hbody)
      as (k & it & rest & _ & -> & _ & _ & _ & Hst').
    destruct (IH st' Hst') as [Hitems Hfinal].
    destruct (cycle_take n st') as [items final]. simpl in *.
    split; [|done]. by apply Forall_cons.
  - destruct Hnext as (st1 & (_ & _ & Hrand) & Hempty). simpl.
    split; [done|]. intros j p Hj.
    destruct (is_random p) eqn:Hr; [|done].
    specialize (Hrand j p Hj Hr). rewrite Hempty in Hrand.
    by apply elem_of_nil in Hrand.
Qed.

(** Once the iterator of a deterministic permuter is used up, the
    permuter gets no more items. *)
Lemma forced_used_up j n : forall st,
  forced_state fs ps st ->
  (forall it, it ∈ iterators st -> perm_ind it = Z.of_nat j -> seeds it = SeedList []) ->
  emitted j (cycle_take n st).1 = 0%nat.
Proof.
  set (P := fun st => forced_state fs ps st
    /\ forall it, it ∈ iterators st -> perm_ind it = Z.of_nat j -> seeds it = SeedList []).
  assert (forall st st', P st -> loop_body st = Dropped st' -> P st') as Hdrop.
  { intros st st' [Hst Hused] Hbody. split; [by eapply forced_dropped|].
    destruct (loop_body_cases st) as [[_ E]|[(k & it & _ & _ & _ & E)|(k & it & item & rest & _ & _ & _ & E)]];
      rewrite E in Hbody; try discriminate.
    injection Hbody as <-. simpl. intros it' Hin. apply Hused.
    by eapply list_elem_of_delete_inv. }
  induction n as [|n IH]; intros st Hst Hused; simpl; [done|].
  pose proof (cycle_next_invariant P Hdrop st (conj Hst Hused)) as Hnext.
  destruct (cycle_next st) as [item st'| |]; [| |done]; [|done].
  destruct Hnext as (st1 & [Hst1 Hused1] & Hbody).
  destruct (forced_yielded fs ps st1 item st' Hst1 Hbody)
    as (k & it & rest & Hk & -> & Hrest & Hcases & Hits & Hst').
  assert (perm_ind it <> Z.of_nat j) as Hne.
  { intros Hj. assert (it ∈ iterators st1) as Hin by (apply list_elem_of_lookup; eauto).
    specialize (Hused1 it Hin Hj).
    destruct Hcases as [[Hs _]|[Hs _]]; congruence. }
  specialize (IH st' Hst'). destruct (cycle_take n st') as [items final]. simpl in *.
  unfold emitted in *. rewrite filter_cons_False by done.
  apply IH. rewrite Hits. intros it' Hin Hj.
  apply elem_of_insert_inv in Hin as [->|(m & _ & Hm)]; [congruence|].
  apply Hused1; [|done]. apply list_elem_of_lookup. eauto.
Qed.

(** A deterministic permuter gets at most one item. *)
Lemma forced_at_most_once j p n : forall st,
  ps !! j = Some p -> is_random p = false ->
  forced_state fs ps st -> (emitted j (cycle_take n st).1 <= 1)%nat.
Proof.
  intros st Hj Hdet. revert st.
  induction n as [|n IH]; intros st Hst; simpl; [unfold emitted; simpl; lia|].
  pose proof (cycle_next_invariant (forced_state fs ps) (forced_dropped fs ps) st Hst) as Hnext.
  destruct (cycle_next st) as [item st'| |]; [| |done]; [|unfold emitted; simpl; lia].
  destruct Hnext as (st1 & Hst1 & Hbody).
  destruct (forced_yielded fs ps st1 item st' Hst1 Hbody)
    as (k & it & rest & Hk & -> & Hrest & Hcases & Hits & Hst').
  destruct (decide (perm_ind it = Z.of_nat j)) as [Hit|Hne].
  - assert (seeds rest = SeedList []) as Hused.
    { destruct Hst1 as (Hall & _ & _).
      pose proof (Forall_lookup_1 _ _ _ _ Hall Hk) as (j' & p' & Hj' & Hind & Hseeds).
      assert (j' = j) as -> by lia. rewrite Hj in Hj'. injection Hj' as <-.
      rewrite Hdet in Hseeds.
      destruct Hcases as [[Hs _]|[_ Hs]]; [|done].
      destruct Hseeds as [?|[_ ?]]; congruence. }
    pose proof (forced_used_up j n st' Hst') as Hzero.
    destruct (cycle_take n st') as [items final]. simpl in *.
    unfold emitted in *. rewrite filter_cons_True by done. simpl.
    rewrite Hzero; [lia|].
    rewrite Hits. intros it' Hin Hj'.
    apply elem_of_insert_inv in Hin as [->|(m & Hm & Hlook)]; [done|].
    exfalso. apply Hm. destruct Hst1 as (_ & Hnd & _).
    apply (NoDup_lookup _ m k (Z.of_nat j) Hnd).
    + by rewrite list_lookup_fmap, Hlook; simpl; rewrite Hj'.
    + by rewrite list_lookup_fmap, Hk; simpl; rewrite Hit.
  - specialize (IH st' Hst'). destruct (cycle_take n st') as [items final]. simpl in *.
    unfold emitted in *. by rewrite filter_cons_False.
Qed.

End ForcedRun.

(** The first round over iterators that all have an item: each gives
    one, in the order of the list. *)
Lemma first_round todo : forall done,
  Forall (fun it => is_Some (pair_next it)) todo ->
  cycle_take (length todo)
    {| iterators := done ++ todo; i := Z.of_nat (length done) |}
  = (omap (fun it => fst <$> pair_next it) todo,
     Some {| iterators := done ++ ((fun it => default it (snd <$> pair_next it)) <$> todo);
             i := Z.of_nat (length done + length todo) |}).
Proof.
  induction todo as [|it todo IH]; intros done Hall.
  - simpl. by rewrite Nat.add_0_r.
  - apply Forall_cons in Hall as [[[item rest] Hnext] Hall].
    set (st := {| iterators := done ++ it :: todo; i := Z.of_nat (length done) |}).
    assert (Z.to_nat (i st `mod` Z.of_nat (length (iterators st))) = length done) as Hpos.
    { simpl. rewrite length_app. simpl. rewrite Z.mod_small; lia. }
    assert (loop_body st
            = Yielded item {| iterators := (done ++ [rest]) ++ todo;
                              i := Z.of_nat (length (done ++ [rest])) |}) as Hbody.
    { destruct (loop_body_cases st) as [[E _]|[(k & it' & Hk & Hnone & Hkpos & _)|(k & it' & item' & rest' & Hk & Hsome & Hkpos & E)]].
      - simpl in E. by destruct done.
      - rewrite Hpos in Hkpos. subst k. simpl in Hk.
        rewrite list_lookup_middle in Hk by done. congruence.
      - rewrite Hpos in Hkpos. subst k. simpl in Hk.
        rewrite list_lookup_middle in Hk by done. injection Hk as <-.
        rewrite Hnext in Hsome. injection Hsome as <- <-.
        rewrite E. simpl. f_equal. f_equal.
        + rewrite insert_app_r_alt by lia. rewrite Nat.sub_diag. simpl.
          by rewrite <- app_assoc.
        + rewrite length_app. simpl. lia. }
    change (length (it :: todo)) with (S (length todo)).
    cbn [cycle_take]. unfold cycle_next. cbn [gen_resume]. rewrite Hbody.
    rewrite (IH (done ++ [rest]) Hall).
    simpl. rewrite Hnext. simpl. f_equal. f_equal. f_equal.
    + by rewrite <- app_assoc.
    + rewrite length_app. simpl. f_equal. lia.
Qed.

Lemma first_round_forced fs (ps : list Permuter) : forall (off : nat),
  fs <> 0 ->
  omap (fun it => fst <$> pair_next it)
    (imap (fun j p => {| perm_ind := Z.of_nat (off + j);
                         seeds := seed_iterator (Some fs) p |}) ps)
  = imap (fun j _ => (Z.of_nat (off + j), fs)) ps
  /\ Forall (fun it => is_Some (pair_next it))
       (imap (fun j p => {| perm_ind := Z.of_nat (off + j);
                            seeds := seed_iterator (Some fs) p |}) ps).
Proof.
  intros off Hfs. revert off.
  assert ((fs =? 0) = false) as Hz by (by apply Z.eqb_neq).
  induction ps as [|p ps' IH]; intros off; [by split|].
  rewrite !imap_cons.
  destruct (IH (S off)) as [Hitems Hall].
  assert (forall A (f : nat -> Permuter -> A) (g : nat -> Permuter -> A),
             (forall j q, f j q = g j q) -> imap f ps' = imap g ps') as Hext.
  { intros A f g Hfg. apply imap_ext. intros. apply Hfg. }
  rewrite (Hext _ _ (fun j p => {| perm_ind := Z.of_nat (S off + j);
                                    seeds := seed_iterator (Some fs) p |}));
    [|intros j q; simpl; do 2 f_equal; lia].
  rewrite (Hext _ ((fun j _ => (Z.of_nat (off + j), fs)) ∘ S)
             (fun j _ => (Z.of_nat (S off + j), fs)));
    [|intros j q; simpl; do 2 f_equal; lia].
  assert (exists rest,
             pair_next {| perm_ind := Z.of_nat (off + 0);
                          seeds := seed_iterator (Some fs) p |}
             = Some ((Z.of_nat (off + 0), fs), rest)) as [rest Hhd].
  { unfold pair_next, seed_iterator. simpl. rewrite Hz.
    destruct (is_random p); simpl; eauto. }
  split.
  - set (f := fun it => fst <$> pair_next it) in *.
    set (hd := {| perm_ind := Z.of_nat (off + 0); seeds := seed_iterator (Some fs) p |}) in *.
    set (tl := imap _ ps') in *.
    change (omap f (hd :: tl))
      with (match f hd with Some y => y :: omap f tl | None => omap f tl end).
    unfold f at 1. rewrite Hhd. simpl. by rewrite Hitems.
  - apply Forall_cons. split; [|done]. rewrite Hhd. eauto.
Qed.

(** C6, as the spec states it, fails: in ["5,10"] the seed that the
    generator emits is the first number and the rng seed is the second.
    The option gives [force_rng_seed = 10] and [force_seed = 5]; a
    randomized target then emits the seed 5 on every turn, a
    deterministic target the seed 5 once; the seed 10 is never
    emitted. *)
Lemma forced_seed_is_first_number :
  parse_force_seed (Some "5,10") = Ret (Some 10, Some 5)
  /\ (cycle_take 3 (cycle_seeds
                      [sample_permuter "a" 100 true (SeedStream (fun n => Z.of_nat n) 0)]
                      (Some 5))).1
     = [(0, 5); (0, 5); (0, 5)]
  /\ cycle_take 3 (cycle_seeds [sample_permuter "a" 100 false (SeedList [1; 2])]
                     (Some 5))
     = ([(0, 5)], None).
Proof. split; [|split]; vm_compute; reflexivity. Qed.

(** C6, amended. The seed option ["5,10"] has the format
    [seed,rngSeed]: it gives [force_seed = 5] and [force_rng_seed = 10].
    With that forced seed the first round of the generator gives every
    target the seed 5, in target order; every item ever emitted has the
    seed 5; a deterministic target gets no second item; and the
    iterator of a randomized target stays in rotation for ever, giving
    the seed 5 again at each of its turns. *)
Theorem forced_seed_replay (permuters : list Permuter) :
  parse_force_seed (Some "5,10") = Ret (Some 10, Some 5)
  /\ (cycle_take (length permuters) (cycle_seeds permuters (Some 5))).1
     = imap (fun j _ => (Z.of_nat j, 5)) permuters
  /\ forall n,
       Forall (fun item : Z * Z => item.2 = 5)
         (cycle_take n (cycle_seeds permuters (Some 5))).1
       /\ (forall j p, permuters !! j = Some p -> is_random p = false ->
             (emitted j (cycle_take n (cycle_seeds permuters (Some 5%Z))).1 <= 1)%nat)
       /\ (forall j p, permuters !! j = Some p -> is_random p = true ->
             exists st,
               (cycle_take n (cycle_seeds permuters (Some 5))).2 = Some st
               /\ {| perm_ind := Z.of_nat j; seeds := SeedRepeat 5 |} ∈ iterators st
               /\ pair_next {| perm_ind := Z.of_nat j; seeds := SeedRepeat 5 |}
                  = Some ((Z.of_nat j, 5),
                          {| perm_ind := Z.of_nat j; seeds := SeedRepeat 5 |})).
Proof.
  assert (5 <> 0) as Hfs by lia.
  pose proof (forced_initial 5 permuters Hfs) as Hinit.
  split; [vm_compute; reflexivity|]. split.
  - destruct (first_round_forced 5 permuters 0 Hfs) as [Hitems Hall].
    pose proof (first_round (make_iterators permuters (Some 5)) [] Hall) as Hround.
    unfold make_iterators in Hround at 1. rewrite length_imap in Hround.
    change (cycle_seeds permuters (Some 5))
      with {| iterators := [] ++ make_iterators permuters (Some 5);
              i := Z.of_nat (length (@nil PairIter)) |}.
    rewrite Hround. simpl. exact Hitems.
  - intros n.
    destruct (forced_take 5 permuters n _ Hinit) as [Hseeds Hfinal].
    split; [done|]. split.
    + intros j p Hj Hdet. by apply (forced_at_most_once 5 permuters j p n).
    + intros j p Hj Hr.
      destruct (cycle_take n (cycle_seeds permuters (Some 5))).2 as [st|] eqn:E.
      * destruct Hfinal as (_ & _ & Hrand). exists st. split; [done|].
        split; [by apply (Hrand j p)|reflexivity].
      * specialize (Hfinal j p Hj). congruence.
Qed.

Lemma forced_seed_replay_witness :
  (cycle_take 2 (cycle_seeds
                   [sample_permuter "a" 100 true (SeedStream (fun n => Z.of_nat n) 0);
                    sample_permuter "b" 100 false (SeedList [1; 2])] (Some 5))).1
  = [(0, 5); (1, 5)]
  /\ Forall (fun item : Z * Z => item.2 = 5)
       (cycle_take 9 (cycle_seeds
                        [sample_permuter "a" 100 true (SeedStream (fun n => Z.of_nat n) 0);
                         sample_permuter "b" 100 false (SeedList [1; 2])] (Some 5))).1.
Proof.
  destruct (forced_seed_replay
              [sample_permuter "a" 100 true (SeedStream (fun n => Z.of_nat n) 0);
               sample_permuter "b" 100 false (SeedList [1; 2])])
    as (_ & Hfirst & Hall).
  split; [exact Hfirst|]. exact (proj1 (Hall 9%nat)).
Defined.

(** ** The worker loop *)

Section WorkerFacts.
Context `{ProfilerOps}.
Variable try_eval_candidate : Permuter -> Z -> EvalResult.
Variable permuters : list Permuter.

(** A [None] taken from the queue makes the worker ask for more work
    and block on its next pull. *)
Lemma worker_none_item b rest :
  worker_body try_eval_candidate permuters b (None :: rest)
  = WContinue true rest [FbNeedMoreWork].
Proof. reflexivity. Qed.

(** After a real task the worker polls again without blocking. *)
Lemma worker_task_item b ind s rest permuter :
  index permuters ind = Ret permuter ->
  worker_body try_eval_candidate permuters b (Some (TaskWork ind s) :: rest)
  = WContinue false rest [FbResult ind (try_eval_candidate permuter s)].
Proof. intros E. unfold worker_body. simpl. by rewrite E. Qed.

(** On [Finished] the worker sends one [Finished] and leaves its loop:
    what is in the queue, or comes later, is not read. *)
Lemma worker_finished_item b rest script items :
  worker_body try_eval_candidate permuters b (Some TaskFinished :: rest)
  = WBreak rest [FbFinished]
  /\ worker_loop try_eval_candidate permuters (Puts items :: script) b
       (Some TaskFinished :: rest)
     = {| sent := [FbFinished]; left_in_queue := rest ++ items;
          ending := WorkerReturned |}.
Proof. split; reflexivity. Qed.

End WorkerFacts.

(** The worker does not survive an empty non-blocking poll.  Its
    first pull is [input_queue.get(block=False)]; on an empty queue that
    call raises [queue.Empty], which the worker's only handler (for
    [KeyboardInterrupt]) does not catch: the function is left through
    the exception, no [NeedMoreWork] is sent and [should_block] is never
    set. *)
Theorem empty_poll_ends_worker `{ProfilerOps}
    (try_eval_candidate : Permuter -> Z -> EvalResult)
    (permuters : list Permuter) (script : list WorkerEvent) :
  queue_get false (@nil (option Task)) = GetRaisesEmpty
  /\ worker_body try_eval_candidate permuters false [] = WRaise QueueEmpty []
  /\ multiprocess_worker try_eval_candidate permuters (Puts [] :: script) []
     = {| sent := []; left_in_queue := []; ending := WorkerDied QueueEmpty |}.
Proof. repeat split. Qed.

(** ** Shutdown accounting *)

Section Shutdown.
Context `{ProfilerOps}.

Lemma drain_loop_unfold hb events c :
  drain_loop hb events c
  = if 0 <? active_workers c then
      hb ;;
      match events with
      | [] => io_diverge
      | Interrupted :: _ => io_raise KeyboardInterrupt
      | Receives FbFinished :: rest =>
          drain_loop hb rest (set_active c (active_workers c - 1))
      | Receives FbNeedMoreWork :: rest => drain_loop hb rest c
      | Receives (FbResult permuter_index res) :: rest =>
          if negb (stop_on_zero (options (context c)) && found_zero c) then
            do r <- process_result (context c) permuter_index res;
            let (ctx, zero) := r in
            drain_loop hb rest (set_result c ctx (if zero then true else found_zero c))
          else drain_loop hb rest c
      end
    else io_ret (c, events).
Proof. destruct events; reflexivity. Qed.

Lemma dispatch_loop_unfold hb events c :
  dispatch_loop hb events c
  = if 0 <? active_workers c then
      hb ;;
      match events with
      | [] => io_diverge
      | Interrupted :: _ => io_raise KeyboardInterrupt
      | Receives FbFinished :: rest =>
          dispatch_loop hb rest (set_active c (active_workers c - 1))
      | Receives fb :: rest =>
          do r <-
            match fb with
            | FbResult permuter_index res =>
                do r <- process_result (context c) permuter_index res;
                let (ctx, zero) := r in
                if zero
                then io_ret (set_result c ctx true, stop_on_zero (options ctx))
                else io_ret (set_result c ctx (found_zero c), false)
            | _ => io_ret (c, false)
            end;
          let '(c, stop) := r in
          if stop then io_ret (c, rest)
          else
            match next_task (perm_seed_iter c) with
            | (None, it) => io_ret (set_tasks c it (task_queue c), rest)
            | (Some (permuter_index, seed), it) =>
                dispatch_loop hb rest
                  (set_tasks c it (task_queue c ++ [TaskWork permuter_index seed]))
            end
      end
    else io_ret (c, events).
Proof. destruct events; reflexivity. Qed.

Lemma io_bind_inv {A B} (m : IO A) (k : A -> IO B) w w' b :
  io_bind m k w = (w', Ret b) ->
  exists w1 a, m w = (w1, Ret a) /\ k a w1 = (w', Ret b).
Proof.
  unfold io_bind. destruct (m w) as [w1 [a| | |]]; try discriminate. eauto.
Qed.

(** The first loop never takes the count of active workers below 0. *)
Lemma dispatch_keeps_count hb events : forall c w w' c' rest,
  0 <= active_workers c ->
  dispatch_loop hb events c w = (w', Ret (c', rest)) ->
  0 <= active_workers c'.
Proof.
  induction events as [|e events IH]; intros c w w' c' rest Hc Hrun;
    rewrite dispatch_loop_unfold in Hrun;
    destruct (0 <? active_workers c) eqn:Hact;
    try (injection Hrun as <- <- <-; done);
    apply io_bind_inv in Hrun as (w1 & [] & _ & Hrun); [discriminate|].
  apply Z.ltb_lt in Hact.
  destruct e as [fb|]; [|discriminate].
  destruct fb as [| |ind res].
  - eapply IH; [|exact Hrun]. simpl. lia.
  - apply io_bind_inv in Hrun as (w2 & [c2 stop] & Hstep & Hrun).
    injection Hstep as <- <- <-.
    destruct (next_task (perm_seed_iter c)) as [[[ind seed]|] it].
    + eapply IH; [|exact Hrun]. simpl. lia.
    + injection Hrun as <- <- <-. simpl. lia.
  - apply io_bind_inv in Hrun as (w2 & [c2 stop] & Hstep & Hrun).
    apply io_bind_inv in Hstep as (w3 & [ctx zero] & _ & Hstep).
    assert (active_workers c2 = active_workers c) as Hc2.
    { destruct zero; injection Hstep as <- <- <-; done. }
    destruct stop.
    + injection Hrun as <- <- <-. lia.
    + destruct (next_task (perm_seed_iter c2)) as [[[ind' seed]|] it].
      * eapply IH; [|exact Hrun]. simpl. lia.
      * injection Hrun as <- <- <-. simpl. lia.
Qed.

(** When the second loop returns it has taken exactly as many
    acknowledgements from the queue as there were active workers. *)
Lemma drain_only_after hb events : forall c w w' c' rest,
  0 <= active_workers c ->
  drain_loop hb events c w = (w', Ret (c', rest)) ->
  exists consumed,
    events = consumed ++ rest
    /\ acks consumed = Z.to_nat (active_workers c)
    /\ active_workers c' = 0.
Proof.
  induction events as [|e events IH]; intros c w w' c' rest Hc Hrun;
    rewrite drain_loop_unfold in Hrun;
    destruct (0 <? active_workers c) eqn:Hact;
    try (apply Z.ltb_ge in Hact; injection Hrun as <- <- <-;
         exists []; repeat split; [simpl|]; lia);
    apply io_bind_inv in Hrun as (w1 & [] & _ & Hrun); [discriminate|].
  apply Z.ltb_lt in Hact.
  destruct e as [fb|]; [|discriminate].
  destruct fb as [| |ind res].
  - destruct (IH (set_active c (active_workers c - 1)) w1 w' c' rest)
      as (consumed & -> & Hacks & Hzero); [simpl; lia|exact Hrun|].
    exists (Receives FbFinished :: consumed). simpl in *.
    repeat split; [|done]. rewrite Hacks. lia.
  - destruct (IH _ _ _ _ _ Hc Hrun) as (consumed & -> & Hacks & Hzero).
    exists (Receives FbNeedMoreWork :: consumed). by repeat split.
  - destruct (negb _).
    + apply io_bind_inv in Hrun as (w2 & [ctx zero] & _ & Hrun).
      destruct (IH (set_result c ctx (if zero then true else found_zero c)) w2 w' c' rest)
        as (consumed & -> & Hacks & Hzero); [exact Hc|exact Hrun|].
      exists (Receives (FbResult ind res) :: consumed). by repeat split.
    + destruct (IH _ _ _ _ _ Hc Hrun) as (consumed & -> & Hacks & Hzero).
      exists (Receives (FbResult ind res) :: consumed). by repeat split.
Qed.

Lemma heartbeat_returns w : exists w', heartbeat w = (w', Ret tt) /\ stdout w' = stdout w.
Proof. eexists. split; reflexivity. Qed.

Lemma acks_last consumed :
  last consumed = Some (Receives FbFinished) -> (1 <= acks consumed)%nat.
Proof.
  induction consumed as [|e [|e' l] IH]; [done| |].
  - simpl. intros [= ->]. simpl. lia.
  - intros Hlast. change (last (e :: e' :: l)) with (last (e' :: l)) in Hlast.
    specialize (IH Hlast). destruct e as [[]|]; simpl in *; lia.
Qed.

(** The second loop does return once the acknowledgements of all
    active workers have come in, at the last of them. *)
Lemma drain_reaches consumed : forall rest c w,
  Forall is_sentinel consumed ->
  0 <= active_workers c ->
  acks consumed = Z.to_nat (active_workers c) ->
  consumed = [] \/ last consumed = Some (Receives FbFinished) ->
  exists w' c',
    drain_loop heartbeat (consumed ++ rest) c w = (w', Ret (c', rest))
    /\ active_workers c' = 0 /\ context c' = context c
    /\ found_zero c' = found_zero c /\ task_queue c' = task_queue c.
Proof.
  induction consumed as [|e consumed IH]; intros rest c w Hall Hc Hacks Hlast;
    rewrite drain_loop_unfold.
  - simpl in *. assert (active_workers c = 0) as Hz by lia.
    rewrite Hz. simpl. eauto 10.
  - apply Forall_cons in Hall as [He Hall].
    assert (1 <= acks (e :: consumed))%nat as Hpos.
    { destruct Hlast as [?|Hlast]; [done|]. by apply acks_last. }
    assert ((0 <? active_workers c) = true) as -> by (apply Z.ltb_lt; lia).
    destruct (heartbeat_returns w) as (w1 & Hhb & _).
    rewrite (io_bind_ret _ _ _ _ _ Hhb).
    assert (consumed = [] \/ last consumed = Some (Receives FbFinished)) as Hlast'.
    { destruct consumed as [|e' l]; [by left|right].
      destruct Hlast as [?|Hlast]; [done|]. exact Hlast. }
    destruct He as [->| ->]; simpl.
    + destruct (IH rest (set_active c (active_workers c - 1)) w1 Hall) as (w' & c' & Hrun & Hzero & ? & ? & ?);
        [simpl; lia|simpl in *; lia|done|]. eauto 10.
    + destruct (IH rest c w1 Hall Hc) as (w' & c' & Hrun & Hzero & ? & ? & ?);
        [done|done|]. eauto 10.
Qed.

(** With results among what comes in, the second loop either returns
    at the last acknowledgement or has been ended before by one of
    the items that are not sentinels. *)
Lemma drain_reaches_or_fails consumed : forall rest c w,
  0 <= active_workers c ->
  acks consumed = Z.to_nat (active_workers c) ->
  consumed = [] \/ last consumed = Some (Receives FbFinished) ->
  (exists w' c',
     drain_loop heartbeat (consumed ++ rest) c w = (w', Ret (c', rest))
     /\ active_workers c' = 0)
  \/ (Exists (fun e => ~ is_sentinel e) consumed
      /\ forall a, snd (drain_loop heartbeat (consumed ++ rest) c w) <> Ret a).
Proof.
  induction consumed as [|e consumed IH]; intros rest c w Hc Hacks Hlast;
    rewrite drain_loop_unfold.
  - simpl in *. assert (active_workers c = 0) as Hz by lia.
    rewrite Hz. simpl. left. eauto.
  - assert (1 <= acks (e :: consumed))%nat as Hpos.
    { destruct Hlast as [?|Hlast]; [done|]. by apply acks_last. }
    assert ((0 <? active_workers c) = true) as -> by (apply Z.ltb_lt; lia).
    destruct (heartbeat_returns w) as (w1 & Hhb & _).
    rewrite (io_bind_ret _ _ _ _ _ Hhb).
    assert (consumed = [] \/ last consumed = Some (Receives FbFinished)) as Hlast'.
    { destruct consumed as [|e' l]; [by left|right].
      destruct Hlast as [?|Hlast]; [done|]. exact Hlast. }
    destruct e as [[| |ind res]|]; simpl.
    + destruct (IH rest (set_active c (active_workers c - 1)) w1) as [Hret|[Hex Hfail]];
        [simpl; lia|simpl in *; lia|done|by left|].
      right. split; [by apply Exists_cons_tl|done].
    + destruct (IH rest c w1 Hc) as [Hret|[Hex Hfail]]; [done|done|by left|].
      right. split; [by apply Exists_cons_tl|done].
    + destruct (negb _).
      * destruct (process_result (context c) ind res w1) as [w2 o] eqn:Eres.
        destruct o as [[ctx zero]| | |].
        -- rewrite (io_bind_ret _ _ _ _ _ Eres).
           destruct (IH rest (set_result c ctx (if zero then true else found_zero c)) w2)
             as [Hret|[Hex Hfail]]; [done|done|done|by left|].
           right. split; [by apply Exists_cons_tl|done].
        -- right. split; [apply Exists_cons_hd; by intros [|]|].
           intros a. unfold io_bind. by rewrite Eres.
        -- right. split; [apply Exists_cons_hd; by intros [|]|].
           intros a. unfold io_bind. by rewrite Eres.
        -- right. split; [apply Exists_cons_hd; by intros [|]|].
           intros a. unfold io_bind. by rewrite Eres.
      * destruct (IH rest c w1 Hc) as [Hret|[Hex Hfail]]; [done|done|by left|].
        right. split; [by apply Exists_cons_tl|done].
    + right. split; [apply Exists_cons_hd; by intros [|]|]. done.
Qed.

End Shutdown.

(** Shutdown accounting. Let the dispatch loop end with [W] workers still active.  Then
    [W] is not negative and the coordinator puts exactly [W] [Finished]
    sentinels on the task queue; a worker that takes a [Finished] from
    the queue sends one [Finished] on the feedback queue and returns,
    whatever is still in the task queue or comes later; the second
    loop takes one off the count of active workers for each [Finished]
    it receives, and returns only when it has taken exactly [W] of them
    from the feedback queue.  At the last of them it does return,
    unless something other than a sentinel came in before and ended
    the loop (a result on which [post_score] exits or raises, or a
    Ctrl+C): with sentinels only, it always returns. *)
Theorem shutdown_accounting `{ProfilerOps}
    (hb : IO unit) (events : list GetEvent) (c0 c : Coordinator)
    (w w1 : World) (rest : list GetEvent) :
  0 <= active_workers c0 ->
  dispatch_loop hb events c0 w = (w1, Ret (c, rest)) ->
  0 <= active_workers c
  /\ task_queue (signal_workers c)
     = task_queue c ++ replicate (Z.to_nat (active_workers c)) TaskFinished
  /\ active_workers (signal_workers c) = active_workers c
  /\ (forall try_eval_candidate permuters b queue items script,
        worker_loop try_eval_candidate permuters (Puts items :: script) b
          (Some TaskFinished :: queue)
        = {| sent := [FbFinished]; left_in_queue := queue ++ items;
             ending := WorkerReturned |})
  /\ (forall hb' c1 more, 0 < active_workers c1 ->
        drain_loop hb' (Receives FbFinished :: more) c1
        = (hb' ;; drain_loop hb' more (set_active c1 (active_workers c1 - 1))))
  /\ (forall hb' w2 c' rest',
        drain_loop hb' rest (signal_workers c) w1 = (w2, Ret (c', rest')) ->
        exists consumed,
          rest = consumed ++ rest'
          /\ acks consumed = Z.to_nat (active_workers c)
          /\ active_workers c' = 0)
  /\ (forall consumed rest',
        rest = consumed ++ rest' ->
        acks consumed = Z.to_nat (active_workers c) ->
        consumed = [] \/ last consumed = Some (Receives FbFinished) ->
        (exists w2 c',
           drain_loop heartbeat rest (signal_workers c) w1 = (w2, Ret (c', rest'))
           /\ active_workers c' = 0)
        \/ (Exists (fun e => ~ is_sentinel e) consumed
            /\ forall a,
                 snd (drain_loop heartbeat rest (signal_workers c) w1) <> Ret a)).
Proof.
  intros Hc0 Hrun.
  pose proof (dispatch_keeps_count hb events c0 w w1 c rest Hc0 Hrun) as Hc.
  split; [done|]. split; [reflexivity|]. split; [reflexivity|].
  split; [intros; reflexivity|]. split.
  { intros hb' c1 more Hpos. rewrite drain_loop_unfold.
    by rewrite (proj2 (Z.ltb_lt 0 (active_workers c1)) Hpos). }
  split.
  - intros hb' w2 c' rest' Hdrain.
    by apply (drain_only_after hb' rest (signal_workers c) w1 w2 c' rest').
  - intros consumed rest' -> Hacks Hlast.
    by apply (drain_reaches_or_fails consumed rest' (signal_workers c) w1).
Qed.

Lemma shutdown_accounting_witness :
  exists w1 c w2 c',
    dispatch_loop heartbeat
      [Receives FbNeedMoreWork; Receives FbFinished; Receives FbNeedMoreWork;
       Receives FbFinished]
      sample_coordinator sample_world
    = (w1, Ret (c, [Receives FbFinished; Receives FbNeedMoreWork; Receives FbFinished]))
    /\ active_workers c = 2
    /\ task_queue (signal_workers c) = [TaskFinished; TaskFinished]
    /\ drain_loop heartbeat
         [Receives FbFinished; Receives FbNeedMoreWork; Receives FbFinished]
         (signal_workers c) w1
       = (w2, Ret (c', []))
    /\ active_workers c' = 0.
Proof.
  eexists _, _.
  assert (dispatch_loop heartbeat
            [Receives FbNeedMoreWork; Receives FbFinished; Receives FbNeedMoreWork;
             Receives FbFinished]
            sample_coordinator sample_world
          = (_, Ret (_, [Receives FbFinished; Receives FbNeedMoreWork;
                         Receives FbFinished]))) as Hrun by reflexivity.
  destruct (shutdown_accounting heartbeat _ sample_coordinator _ sample_world _ _
              ltac:(simpl; lia) Hrun)
    as (_ & Hqueue & _ & _ & _ & _ & Hreach).
  destruct (Hreach [Receives FbFinished; Receives FbNeedMoreWork; Receives FbFinished] [])
    as [(w2 & c' & Hdrain & Hzero)|[_ Hfail]].
  - reflexivity.
  - reflexivity.
  - right. reflexivity.
  - exists w2, c'. split; [exact Hrun|]. split; [reflexivity|].
    split; [exact Hqueue|]. split; [exact Hdrain|exact Hzero].
  - exfalso. eapply Hfail. reflexivity.
Defined.

(** ** The interrupt handler of [run] *)

Section Interrupt.
Context `{ProfilerOps}.
Variable try_eval_candidate : Permuter -> Z -> EvalResult.
Variable load_permuter : Options -> string -> option Z -> IO Permuter.
Variable net_threads : nat.
Variable traceback : string.

(** The handler exits with status 1, after the traceback, when the
    clock minus [last_time], subtracted and compared as doubles, is
    more than 5, and with status 0 and without traceback otherwise. *)
Lemma on_interrupt_exit w :
  let now := clock w (ticks w) in
  let w' := fst (on_interrupt traceback w) in
  (PrimFloat.ltb 5 (PrimFloat.sub now (last_time w)) = true ->
     snd (on_interrupt traceback w) = Exit 1
     /\ stdout w' = stdout w ++ [EmptyString +:+ NL; "Aborting stuck process." +:+ NL]
     /\ stderr w' = stderr w ++ [traceback +:+ NL])
  /\ (PrimFloat.ltb 5 (PrimFloat.sub now (last_time w)) = false ->
        snd (on_interrupt traceback w) = Exit 0
        /\ stdout w' = stdout w ++ [EmptyString +:+ NL; "Exiting." +:+ NL]
        /\ stderr w' = stderr w).
Proof.
  unfold on_interrupt, io_bind, time_time, get_last_time, print, print_end, eprint,
    sys_exit. simpl.
  destruct (PrimFloat.ltb 5 (PrimFloat.sub (clock w (ticks w)) (last_time w))); simpl.
  - split; [|done]. intros _. by rewrite <- app_assoc.
  - split; [done|]. intros _. by rewrite <- app_assoc.
Qed.

End Interrupt.

(** [run] turns a [KeyboardInterrupt] of [run_inner] into an exit.  At
    that moment it reads the clock and takes [last_time], the reading
    of the last heartbeat, from it, in double arithmetic: the exit
    status is 1 when the difference is more than 5, and 0 otherwise.
    The [KeyboardInterrupt] itself never leaves [run]. *)
Theorem run_exits_on_interrupt `{ProfilerOps}
    (try_eval_candidate : Permuter -> Z -> EvalResult)
    (load_permuter : Options -> string -> option Z -> IO Permuter)
    (net_threads : nat) (traceback : string)
    (fuel : nat) (events : list GetEvent) (options : Options) (w : World) :
  snd (run try_eval_candidate load_permuter net_threads traceback fuel events options w)
  <> Raise KeyboardInterrupt
  /\ forall w',
       run_inner try_eval_candidate load_permuter net_threads fuel events options
         heartbeat (fst (heartbeat w))
       = (w', Raise KeyboardInterrupt) ->
       snd (run try_eval_candidate load_permuter net_threads traceback
              fuel events options w)
       = Exit (if PrimFloat.ltb 5 (PrimFloat.sub (clock w' (ticks w')) (last_time w'))
               then 1 else 0).
Proof.
  assert (run try_eval_candidate load_permuter net_threads traceback fuel events options w
          = match run_inner try_eval_candidate load_permuter net_threads fuel events
                    options heartbeat (fst (heartbeat w)) with
            | (w', Raise KeyboardInterrupt) => on_interrupt traceback w'
            | r => r
            end) as Hrun by reflexivity.
  split.
  - rewrite Hrun.
    destruct (run_inner _ _ _ _ _ _ _ _) as [w' [a|code|[]|]]; try discriminate.
    destruct (on_interrupt_exit traceback w') as [H1 H2].
    destruct (PrimFloat.ltb 5 (PrimFloat.sub (clock w' (ticks w')) (last_time w'))).
    + destruct (H1 eq_refl) as [-> _]. discriminate.
    + destruct (H2 eq_refl) as [-> _]. discriminate.
  - intros w' Hinner. rewrite Hrun, Hinner.
    destruct (on_interrupt_exit traceback w') as [H1 H2].
    destruct (PrimFloat.ltb 5 (PrimFloat.sub (clock w' (ticks w')) (last_time w'))).
    + by destruct (H1 eq_refl).
    + by destruct (H2 eq_refl).
Qed.

(** ** The generator over finite seed spaces *)

Section FiniteCycle.

Lemma elem_of_delete_lookup {A} (l : list A) k x :
  x ∈ delete k l -> exists m, m <> k /\ l !! m = Some x.
Proof.
  intros (m & Hm)%list_elem_of_lookup. rewrite list_lookup_delete in Hm.
  case_decide; [exists m|exists (S m)]; split; auto; lia.
Qed.

Lemma same_index st k m it it' :
  NoDup (perm_ind <$> iterators st) ->
  iterators st !! k = Some it -> iterators st !! m = Some it' ->
  perm_ind it = perm_ind it' -> k = m.
Proof.
  intros Hnd Hk Hm Heq.
  apply (NoDup_lookup _ k m (perm_ind it) Hnd).
  - by rewrite list_lookup_fmap, Hk.
  - by rewrite list_lookup_fmap, Hm, Heq.
Qed.

Lemma finite_dropped st st' :
  finite_state st -> loop_body st = Dropped st' ->
  finite_state st' /\ total_left st' = total_left st
  /\ forall j l, queue_of st j l -> queue_of st' j l.
Proof.
  intros [Hfin Hnd] Hbody.
  destruct (loop_body_cases st) as [[_ E]|[(k & it & Hk & Hnone & _ & E)|(k & it & item & rest & _ & _ & _ & E)]];
    rewrite E in Hbody; try discriminate.
  injection Hbody as <-.
  assert (seeds it = SeedList []) as Hempty.
  { destruct (Forall_lookup_1 _ _ _ _ Hfin Hk) as [l Hl].
    unfold pair_next in Hnone. rewrite Hl in *. destruct l; [done|discriminate]. }
  split; [|split].
  - split; simpl; [by apply Forall_delete|].
    rewrite list_fmap_delete. eapply sublist_NoDup; [exact Hnd|apply sublist_delete].
  - unfold total_left. simpl. rewrite delete_take_drop.
    rewrite <- (take_drop_middle _ _ _ Hk) at 3.
    assert (length (seeds_left it) = 0%nat) as Hzero
      by (unfold seeds_left; rewrite Hempty; done).
    rewrite !sum_list_with_app. simpl. lia.
  - intros j l [[m Hm]|[-> Hnone']].
    + destruct (decide (m = k)) as [->|Hne].
      * rewrite Hk in Hm. injection Hm as ->. simpl in Hempty. injection Hempty as ->.
        right. split; [done|]. simpl. intros it' (m' & Hne & Hm')%elem_of_delete_lookup Hj.
        apply Hne. by apply (same_index st m' k it' {| perm_ind := j; seeds := SeedList [] |}).
      * left. simpl. apply list_elem_of_lookup. by apply (elem_of_delete_other _ k m).
    + right. split; [done|]. simpl. intros it' Hin. apply Hnone'.
      by eapply list_elem_of_delete_inv.
Qed.

Lemma finite_yielded st item st' :
  finite_state st -> loop_body st = Yielded item st' ->
  finite_state st' /\ total_left st = S (total_left st')
  /\ forall j l, queue_of st j l ->
       if decide (j = item.1) then exists l', l = item.2 :: l' /\ queue_of st' j l'
       else queue_of st' j l.
Proof.
  intros [Hfin Hnd] Hbody.
  destruct (loop_body_cases st) as [[_ E]|[(k & it & _ & _ & _ & E)|(k & it & item' & rest & Hk & Hnext & _ & E)]];
    rewrite E in Hbody; try discriminate.
  injection Hbody as <- <-.
  destruct (Forall_lookup_1 _ _ _ _ Hfin Hk) as [l0 Hl0].
  destruct it as [ind sd]. simpl in Hl0. subst sd.
  unfold pair_next in Hnext. simpl in Hnext.
  destruct l0 as [|s l0]; [discriminate|]. simpl in Hnext. injection Hnext as <- <-.
  pose proof (lookup_lt_Some _ _ _ Hk) as Hlt.
  split; [|split].
  - split; simpl.
    + apply Forall_insert; [done|]. simpl. eauto.
    + rewrite list_fmap_insert. simpl. rewrite list_insert_id; [done|].
      by rewrite list_lookup_fmap, Hk.
  - unfold total_left. simpl. rewrite insert_take_drop by done.
    rewrite <- (take_drop_middle _ _ _ Hk) at 1.
    rewrite !sum_list_with_app. simpl. unfold seeds_left. simpl. lia.
  - simpl. intros j l [[m Hm]|[-> Hnone']].
    + destruct (decide (m = k)) as [->|Hne].
      * rewrite Hk in Hm. injection Hm as <- <-.
        rewrite decide_True by done. exists l0. split; [done|].
        left. exists k. simpl. by rewrite list_lookup_insert_eq.
      * assert (j <> ind) as Hj.
        { intros ->. apply Hne.
          by apply (same_index st m k {| perm_ind := ind; seeds := SeedList l |}
                      {| perm_ind := ind; seeds := SeedList (s :: l0) |}). }
        rewrite decide_False by done. left. exists m. simpl.
        by rewrite list_lookup_insert_ne.
    + assert (j <> ind) as Hj.
      { intros ->. apply (Hnone' {| perm_ind := ind; seeds := SeedList (s :: l0) |}); [|done].
        apply list_elem_of_lookup. eauto. }
      rewrite decide_False by done. right. split; [done|]. simpl.
      intros it' [->|(m & _ & Hm)]%elem_of_insert_inv; [done|].
      apply Hnone'. apply list_elem_of_lookup. eauto.
Qed.

Lemma total_left_zero st j l :
  finite_state st -> total_left st = 0%nat -> queue_of st j l -> l = [].
Proof.
  intros _ Hzero [[k Hk]|[-> _]]; [|done].
  assert ({| perm_ind := j; seeds := SeedList l |} ∈ iterators st) as Hin
    by (apply list_elem_of_lookup; eauto).
  pose proof (sum_list_with_in _ (fun it => length (seeds_left it)) _ Hin) as Hle.
  unfold total_left in Hzero. rewrite Hzero in Hle. unfold seeds_left in Hle. simpl in Hle.
  destruct l; [done|simpl in Hle; lia].
Qed.

Lemma cycle_take_S n st :
  cycle_take (S n) st
  = match cycle_next st with
    | GenYield item st' =>
        let (items, final) := cycle_take n st' in (item :: items, final)
    | _ => ([], None)
    end.
Proof. reflexivity. Qed.

(** From a state with [n] seeds left the generator gives [n] items and
    then ends; each permuter gets the seeds of its iterator, in their
    order. *)
Lemma finite_run n : forall st,
  finite_state st -> total_left st = n ->
  exists items,
    cycle_take (S n) st = (items, None)
    /\ length items = n
    /\ forall j l, queue_of st j l -> seeds_of j items = l.
Proof.
  induction n as [|n IH]; intros st Hfin Htotal.
  - set (P := fun st1 => finite_state st1 /\ total_left st1 = 0%nat).
    assert (forall st1 st2, P st1 -> loop_body st1 = Dropped st2 -> P st2) as Hdrop.
    { intros st1 st2 [Hf Ht] Hb. destruct (finite_dropped st1 st2 Hf Hb) as (? & ? & _).
      split; [done|congruence]. }
    pose proof (cycle_next_invariant P Hdrop st (conj Hfin Htotal)) as Hnext.
    rewrite cycle_take_S. destruct (cycle_next st) as [item st'| |]; [| |done].
    + destruct Hnext as (st1 & [Hf1 Ht1] & Hbody).
      destruct (finite_yielded st1 item st' Hf1 Hbody) as (_ & Hs & _). lia.
    + exists []. split; [done|]. split; [done|].
      intros j l Hq. symmetry. by apply (total_left_zero st j l).
  - set (P := fun st1 => finite_state st1 /\ total_left st1 = S n
                        /\ forall j l, queue_of st j l -> queue_of st1 j l).
    assert (forall st1 st2, P st1 -> loop_body st1 = Dropped st2 -> P st2) as Hdrop.
    { intros st1 st2 (Hf & Ht & Hq) Hb.
      destruct (finite_dropped st1 st2 Hf Hb) as (? & ? & Hq').
      split; [done|]. split; [congruence|]. auto. }
    assert (P st) as HP by (split; [done|]; split; [done|]; auto).
    pose proof (cycle_next_invariant P Hdrop st HP) as Hnext.
    rewrite (cycle_take_S (S n)). destruct (cycle_next st) as [item st'| |]; [| |done].
    + destruct Hnext as (st1 & (Hf1 & Ht1 & Hq1) & Hbody).
      destruct (finite_yielded st1 item st' Hf1 Hbody) as (Hf' & Hs & Hq').
      destruct (IH st' Hf') as (items & Hrun & Hlen & Hseeds); [lia|].
      rewrite Hrun. exists (item :: items). split; [done|]. split; [simpl; lia|].
      intros j l Hq. specialize (Hq' j l (Hq1 j l Hq)). unfold seeds_of in *.
      destruct (decide (j = item.1)) as [->|Hne].
      * destruct Hq' as (l' & -> & Hq'). rewrite filter_cons_True by done.
        simpl. f_equal. by apply Hseeds.
      * rewrite filter_cons_False by (by intros ?). by apply Hseeds.
    + destruct Hnext as (st1 & (Hf1 & Ht1 & _) & Hempty).
      unfold total_left in Ht1. rewrite Hempty in Ht1. simpl in Ht1. lia.
Qed.


Lemma total_left_imap (spaces : list (list Z)) : forall g : nat -> Z,
  sum_list_with (fun it => length (seeds_left it))
    (imap (fun k l => {| perm_ind := g k; seeds := SeedList l |}) spaces)
  = length (concat spaces).
Proof.
  induction spaces as [|l spaces IH]; intros g; [done|].
  rewrite imap_cons. simpl. rewrite length_app.
  f_equal. apply (IH (fun k => g (S k))).
Qed.

Lemma finite_iterators ps force_seed spaces :
  Forall2 (fun p l => seed_iterator force_seed p = SeedList l) ps spaces ->
  make_iterators ps force_seed
  = imap (fun k l => {| perm_ind := Z.of_nat k; seeds := SeedList l |}) spaces.
Proof.
  intros Hall. apply list_eq. intros k. unfold make_iterators.
  rewrite !list_lookup_imap.
  destruct (ps !! k) as [p|] eqn:Ep.
  - destruct (Forall2_lookup_l _ _ _ _ _ Hall Ep) as (l & -> & Hl). simpl. by rewrite Hl.
  - destruct (spaces !! k) as [l|] eqn:El; [|done].
    destruct (Forall2_lookup_r _ _ _ _ _ Hall El) as (p & Hp & _). congruence.
Qed.

(** A property of the items that every yielding pass establishes holds
    for all the items taken. *)
Lemma cycle_take_invariant (P : CycleState -> Prop) (R : Z * Z -> Prop) :
  (forall st st', P st -> loop_body st = Dropped st' -> P st') ->
  (forall st item st', P st -> loop_body st = Yielded item st' -> P st' /\ R item) ->
  forall n st, P st -> Forall R (cycle_take n st).1.
Proof.
  intros Hdrop Hyield. induction n as [|n IH]; intros st HP; [by constructor|].
  pose proof (cycle_next_invariant P Hdrop st HP) as Hnext.
  rewrite cycle_take_S.
  destruct (cycle_next st) as [item st'| |]; [|by constructor|done].
  destruct Hnext as (st1 & HP1 & Hbody).
  destruct (Hyield st1 item st' HP1 Hbody) as [HP' HR].
  specialize (IH st' HP'). destruct (cycle_take n st') as [items final].
  by constructor.
Qed.

End FiniteCycle.

(** When every permuter has a finite list of seeds, the generator
    ends after as many items as there are seeds in all, and the items
    of each permuter are the seeds of its list, each once and in the
    order of the list. *)
Theorem finite_seeds_given_once (ps : list Permuter) (force_seed : option Z)
    (spaces : list (list Z)) :
  Forall2 (fun p l => seed_iterator force_seed p = SeedList l) ps spaces ->
  exists items,
    cycle_take (S (length (concat spaces))) (cycle_seeds ps force_seed) = (items, None)
    /\ length items = length (concat spaces)
    /\ forall j l, spaces !! j = Some l -> seeds_of (Z.of_nat j) items = l.
Proof.
  intros Hall.
  pose proof (finite_iterators ps force_seed spaces Hall) as Hits.
  assert (finite_state (cycle_seeds ps force_seed)) as Hfin.
  { split; simpl; rewrite Hits.
    - apply Forall_lookup. intros k it Hk. rewrite list_lookup_imap in Hk.
      destruct (spaces !! k) as [l|]; [|done]. injection Hk as <-. simpl. eauto.
    - apply NoDup_alt. intros a b x Ha Hb.
      rewrite list_lookup_fmap, list_lookup_imap in Ha, Hb.
      destruct (spaces !! a); [|done]. destruct (spaces !! b); [|done].
      simpl in Ha, Hb. injection Ha as <-. injection Hb as Hb. lia. }
  assert (total_left (cycle_seeds ps force_seed) = length (concat spaces)) as Htotal.
  { unfold total_left. simpl. rewrite Hits. apply total_left_imap. }
  destruct (finite_run _ _ Hfin Htotal) as (items & Hrun & Hlen & Hseeds).
  exists items. split; [done|]. split; [done|].
  intros j l Hj. apply Hseeds. left. exists j. simpl.
  by rewrite Hits, list_lookup_imap, Hj.
Qed.

Lemma finite_seeds_given_once_witness :
  Forall2 (fun p l => seed_iterator None p = SeedList l) three_targets
    [[1; 2; 3]; [7]; [8; 9]]
  /\ exists items,
       cycle_take 7 (cycle_seeds three_targets None) = (items, None)
       /\ length items = 6%nat
       /\ forall j l, [[1; 2; 3]; [7]; [8; 9]] !! j = Some l ->
            seeds_of (Z.of_nat j) items = l.
Proof.
  split; [repeat constructor|].
  apply (finite_seeds_given_once three_targets None [[1; 2; 3]; [7]; [8; 9]]).
  repeat constructor.
Defined.

(** Every pair that the generator yields names a permuter of the
    list: [permuters[permuter_index]] finds it, whatever the seed
    spaces and the forced seed are. *)
Theorem yielded_index_in_range (ps : list Permuter) (force_seed : option Z) (n : nat) :
  Forall (fun item : Z * Z =>
            exists j p, item.1 = Z.of_nat j /\ ps !! j = Some p
                        /\ Py.index ps item.1 = Py.Ret p)
    (cycle_take n (cycle_seeds ps force_seed)).1.
Proof.
  set (P := fun st : CycleState =>
              Forall (fun it => exists j, perm_ind it = Z.of_nat j /\ is_Some (ps !! j))
                (iterators st)).
  apply (cycle_take_invariant P).
  - intros st st' HP Hbody.
    destruct (loop_body_cases st) as [[_ E]|[(k & it & _ & _ & _ & E)|(k & it & item & rest & _ & _ & _ & E)]];
      rewrite E in Hbody; try discriminate.
    injection Hbody as <-. by apply Forall_delete.
  - intros st item st' HP Hbody.
    destruct (loop_body_cases st) as [[_ E]|[(k & it & _ & _ & _ & E)|(k & it & item' & rest & Hk & Hnext & _ & E)]];
      rewrite E in Hbody; try discriminate.
    injection Hbody as <- <-.
    destruct (Forall_lookup_1 _ _ _ _ HP Hk) as (j & Hj & [p Hp]).
    unfold pair_next in Hnext. destruct (seed_next (seeds it)) as [[s r]|]; [|done].
    injection Hnext as <- <-. split.
    + apply Forall_insert; [done|]. simpl. eauto.
    + exists j, p. simpl. split; [done|]. split; [done|].
      pose proof (lookup_lt_Some _ _ _ Hp) as Hlt.
      unfold Py.index. rewrite Hj.
      assert ((Z.of_nat j <? 0) = false) as -> by lia.
      assert ((0 <=? Z.of_nat j) && (Z.of_nat j <? Z.of_nat (length ps)) = true) as ->
        by (apply andb_true_intro; split; lia).
      by rewrite Nat2Z.id, Hp.
  - unfold P, cycle_seeds, make_iterators. simpl.
    apply Forall_lookup. intros k it Hk. rewrite list_lookup_imap in Hk.
    destruct (ps !! k) as [p|] eqn:Ep; [|done]. injection Hk as <-.
    exists k. simpl. by rewrite Ep.
Qed.

Lemma run_exits_on_interrupt_witness :
  snd (run (fun _ _ => scored 1 "h")
         (fun _ d _ => io_ret (sample_permuter d 100 false (SeedList [1])))
         0 "Traceback" 0 [Interrupted] sample_options sample_world)
  = Py.Exit 0.
Proof.
  destruct (run_exits_on_interrupt (fun _ _ => scored 1 "h")
              (fun _ d _ => io_ret (sample_permuter d 100 false (SeedList [1])))
              0 "Traceback" 0 [Interrupted] sample_options sample_world) as [_ Hexit].
  erewrite Hexit; [|vm_compute; reflexivity].
  reflexivity.
Defined.

(** ** The directory that [write_candidate] makes *)

Section OutputDirectory.
Context `{ProfilerOps}.



End OutputDirectory.


(** ** What the aggregator keeps *)

Section Later.
Context `{ProfilerOps}.

Lemma later_permuter_refl p : later_permuter p p.
Proof. split; [lia|]. split; [done|]. by destruct p. Qed.

Lemma later_permuter_trans p1 p2 p3 :
  later_permuter p1 p2 -> later_permuter p2 p3 -> later_permuter p1 p3.
Proof.
  intros (Hb1 & Hh1 & E1) (Hb2 & Hh2 & E2).
  split; [lia|]. split; [set_solver|].
  rewrite <- E1 at 3. rewrite <- E2. by destruct p3.
Qed.

Lemma later_context_refl c : later_context c c.
Proof.
  split; [done|]. split; [lia|].
  apply Forall2_same_length_lookup. split; [done|].
  intros k p p' Hp Hp'. rewrite Hp in Hp'. injection Hp' as <-.
  apply later_permuter_refl.
Qed.

Lemma later_context_trans c1 c2 c3 :
  later_context c1 c2 -> later_context c2 c3 -> later_context c1 c3.
Proof.
  intros (Ho1 & Hc1 & Hp1) (Ho2 & Hc2 & Hp2).
  split; [congruence|]. split; [lia|].
  eapply Forall2_trans; [|exact Hp1|exact Hp2].
  intros ? ? ?. apply later_permuter_trans.
Qed.

Lemma later_set_counters c it er prof :
  0 <= er - errors c <= it - iteration c ->
  later_context c (set_counters c it er prof).
Proof.
  intros Hc. split; [done|]. split; [done|]. apply (later_context_refl c).
Qed.

Lemma post_score_scored context permuter result w :
  match snd (post_score context permuter (Scored result) w) with
  | Ret (context', permuter', zero) =>
      iteration context' = iteration context + 1
      /\ errors context' = errors context + match score result with Some _ => 0 | None => 1 end
      /\ options context' = options context
      /\ permuters context' = permuters context
      /\ later_permuter permuter permuter'
      /\ zero = bool_decide (score result = Some 0)
  | Raise e =>
      (source result = None /\ exists msg, e = AssertionError msg)
      \/ (print_diffs (options context) = true /\ key_press w = Raise e)
  | Diverge => print_diffs (options context) = true /\ key_press w = Diverge
  | Exit _ => False
  end.
Proof.
  assert (forall s, later_permuter permuter
            (set_best_score permuter (Z.min (best_score permuter) s))) as Hbest.
  { intros s. split; [simpl; lia|]. split; [done|]. by destruct permuter. }
  assert (forall s h, later_permuter permuter
            (set_best_score (set_hashes permuter ({[h]} ∪ hashes permuter))
               (Z.min (best_score permuter) s))) as Hboth.
  { intros s h. split; [simpl; lia|]. split; [simpl; set_solver|]. by destruct permuter. }
  unfold post_score.
  set (ctx' := set_counters _ _ _ _).
  assert (iteration ctx' = iteration context + 1
          /\ errors ctx' = errors context + match score result with Some _ => 0 | None => 1 end
          /\ options ctx' = options context
          /\ permuters ctx' = permuters context) as Hctx.
  { unfold ctx'. simpl. destruct (score result); repeat split; lia. }
  clearbody ctx'.
  unfold io_bind at 1.
  destruct (when _ _ w) as [w0 o] eqn:Ewhen.
  assert (match o with
          | Ret _ => True
          | Raise e =>
              (source result = None /\ exists msg, e = AssertionError msg)
              \/ (print_diffs (options context) = true /\ key_press w = Raise e)
          | Diverge => print_diffs (options context) = true /\ key_press w = Diverge
          | Exit _ => False
          end) as Ho.
  { unfold when in Ewhen. destruct (print_diffs (options context)).
    - destruct (source result); simpl in Ewhen.
      + unfold io_bind, io_ret, input, print, print_end, key_press in *.
        simpl in Ewhen.
        destruct (stdin w) as [|[l| |] rest]; simpl in Ewhen;
          injection Ewhen as <- <-; auto.
      + unfold io_bind, io_raise in Ewhen. simpl in Ewhen.
        injection Ewhen as <- <-. left. eauto.
    - unfold io_ret in Ewhen. injection Ewhen as <- <-. done. }
  destruct o as [[]| |e|]; [|done|exact Ho|exact Ho]. clear Ho.
  unfold io_bind at 1.
  match goal with |- context [?m w0] => destruct (m w0) as [w1 o1] eqn:Estep end.
  assert (match o1 with
          | Ret permuter' => later_permuter permuter permuter'
          | Raise e => source result = None /\ exists msg, e = AssertionError msg
          | _ => False
          end) as Ho1.
  { destruct (score result) as [s|]; [destruct (hash result) as [h|]|];
      try (unfold io_ret in Estep; injection Estep as <- <-; apply later_permuter_refl).
    destruct ((s <=? base_score permuter) && negb (bool_decide (h ∈ hashes permuter)));
      [|unfold io_ret in Estep; injection Estep as <- <-; apply later_permuter_refl].
    unfold io_bind at 1 in Estep. unfold print_end at 1 in Estep.
    unfold io_bind at 1 in Estep.
    match type of Estep with
    | context [(if ?c then ?a else ?b) ?w] =>
        assert (exists w', (if c then a else b) w = (w', Ret tt)) as [w2 Eprint]
    end.
    { repeat match goal with
             | |- context [if ?c then _ else _] => destruct c
             end; eexists; reflexivity. }
    rewrite Eprint in Estep.
    unfold io_bind at 1 in Estep.
    match type of Estep with
    | context [write_candidate ?p result w2] =>
        destruct (write_candidate_new_dir p result w2) as (d & fs & _ & _ & _ & Hw);
        destruct (write_candidate p result w2) as [w3 o3]
    end.
    simpl in Hw. subst o3.
    destruct (source result); simpl in Estep.
    - unfold io_ret in Estep. injection Estep as <- <-.
      destruct (bool_decide (s ≠ 0)); [apply Hboth|apply Hbest].
    - injection Estep as <- <-. eauto. }
  destruct o1 as [permuter'| |e|]; [|done|by left|done].
  unfold io_bind, print_end, io_ret. simpl.
  destruct Hctx as (? & ? & ? & ?).
  split; [done|]. split; [done|]. split; [done|]. split; [done|]. by split.
Qed.

Lemma post_score_failed context permuter e w :
  snd (post_score context permuter (Failed e) w)
  = if abort_exceptions (options context) then Exit 1
    else Ret (context, permuter, false).
Proof.
  unfold post_score, io_bind, print, print_end, io_ret, sys_exit. simpl.
  destruct (seed e) as [[a b]|]; simpl; by destruct (abort_exceptions _).
Qed.

(** What a call of [post_score] can do: it returns with a later context
    and a later permuter, it exits with status 1 on an [EvalError]
    under [abort_exceptions], one of its assertions on the source
    fails, or under [print_diffs] the read of a key does not give a
    key. *)
Lemma post_score_later context permuter result w :
  match snd (post_score context permuter result w) with
  | Ret (context', permuter', zero) =>
      later_context context context'
      /\ permuters context' = permuters context
      /\ later_permuter permuter permuter'
      /\ (zero = true <-> exists r, result = Scored r /\ score r = Some 0)
  | Exit code =>
      code = 1 /\ abort_exceptions (options context) = true
      /\ exists e, result = Failed e
  | Raise e =>
      exists r, result = Scored r
                /\ ((source r = None /\ exists msg, e = AssertionError msg)
                    \/ (print_diffs (options context) = true /\ key_press w = Raise e))
  | Diverge =>
      (exists r, result = Scored r)
      /\ print_diffs (options context) = true /\ key_press w = Diverge
  end.
Proof.
  destruct result as [r|e].
  - pose proof (post_score_scored context permuter r w) as Hpost.
    destruct (snd (post_score context permuter (Scored r) w))
      as [[[context' permuter'] zero]| |e|]; [| done | | by eauto].
    + destruct Hpost as (Hit & Her & Hopt & Hps & Hlater & ->).
      split.
      { split; [done|]. split; [destruct (score r); lia|].
        rewrite Hps. apply (later_context_refl context). }
      split; [done|]. split; [done|].
      rewrite bool_decide_eq_true. split; [eauto|].
      by intros (r' & [= <-] & Hr).
    + eauto.
  - rewrite post_score_failed.
    destruct (abort_exceptions (options context)) eqn:E.
    + eauto.
    + split; [apply later_context_refl|]. split; [done|].
      split; [apply later_permuter_refl|]. split; [done|].
      by intros (r' & [= ] & _).
Qed.

Lemma index_lookup {A} (l : list A) (i : Z) (x : A) :
  Py.index l i = Ret x ->
  l !! Z.to_nat (if i <? 0 then i + Z.of_nat (length l) else i) = Some x.
Proof.
  unfold Py.index. destruct (_ && _); [|done].
  destruct (l !! _) eqn:E; [|done]. by intros [= ->].
Qed.

(** [process_result] puts the permuter back where it took it from. *)
Lemma process_result_later context permuter_index res w w' context' zero :
  process_result context permuter_index res w = (w', Ret (context', zero)) ->
  later_context context context'
  /\ (zero = true -> exists r, res = Scored r /\ score r = Some 0).
Proof.
  unfold process_result. intros Hrun.
  apply io_bind_inv in Hrun as (w1 & permuter & Hindex & Hrun).
  unfold lift in Hindex. injection Hindex as <- Hindex.
  apply index_lookup in Hindex.
  apply io_bind_inv in Hrun as (w2 & [[ctx1 permuter1] b] & Hpost & Hrun).
  unfold io_ret in Hrun. injection Hrun as <- <- <-.
  pose proof (post_score_later context permuter res w) as Hlater.
  rewrite Hpost in Hlater. simpl in Hlater.
  destruct Hlater as ((Hopt & Hcount & _) & Hps & Hperm & Hzero).
  split; [|apply Hzero].
  split; [done|]. split; [done|]. simpl. rewrite Hps.
  rewrite <- (list_insert_id _ _ _ Hindex) at 1.
  apply Forall2_insert; [|done].
  apply (later_context_refl context).
Qed.

Lemma single_loop_later try_eval_candidate hb fuel : forall context it zero w w' context' zero',
  single_loop try_eval_candidate fuel hb context it zero w = (w', Ret (context', zero')) ->
  later_context context context'.
Proof.
  induction fuel as [|fuel IH]; intros context it zero w w' context' zero' Hrun; [done|].
  simpl in Hrun.
  destruct (cycle_next it) as [[permuter_index seed] it'| |];
    try (injection Hrun as <- <- <-; apply later_context_refl).
  apply io_bind_inv in Hrun as (w1 & [] & _ & Hrun).
  apply io_bind_inv in Hrun as (w2 & permuter & _ & Hrun).
  apply io_bind_inv in Hrun as (w3 & [ctx1 b] & Hstep & Hrun).
  apply process_result_later in Hstep as [Hstep _].
  destruct b; [destruct (stop_on_zero (options ctx1))|].
  - by injection Hrun as <- <- <-.
  - eapply later_context_trans; [exact Hstep|]. eapply IH, Hrun.
  - eapply later_context_trans; [exact Hstep|]. eapply IH, Hrun.
Qed.

Lemma dispatch_later hb events : forall c w w' c' rest,
  dispatch_loop hb events c w = (w', Ret (c', rest)) ->
  later_context (context c) (context c').
Proof.
  induction events as [|e events IH]; intros c w w' c' rest Hrun;
    rewrite dispatch_loop_unfold in Hrun;
    destruct (0 <? active_workers c);
    try (injection Hrun as <- <- <-; apply later_context_refl);
    apply io_bind_inv in Hrun as (w1 & [] & _ & Hrun); [discriminate|].
  destruct e as [fb|]; [|discriminate].
  destruct fb as [| |ind res].
  - apply (IH _ _ _ _ _ Hrun).
  - apply io_bind_inv in Hrun as (w2 & [c2 stop] & Hstep & Hrun).
    injection Hstep as <- <- <-.
    destruct (next_task (perm_seed_iter c)) as [[[ind seed]|] it].
    + apply (IH _ _ _ _ _ Hrun).
    + injection Hrun as <- <- <-. apply later_context_refl.
  - apply io_bind_inv in Hrun as (w2 & [c2 stop] & Hstep & Hrun).
    apply io_bind_inv in Hstep as (w3 & [ctx zero] & Hres & Hstep).
    apply process_result_later in Hres as [Hres _].
    assert (context c2 = ctx) as Hc2.
    { destruct zero; injection Hstep as <- <- <-; done. }
    subst ctx.
    destruct stop.
    + by injection Hrun as <- <- <-.
    + destruct (next_task (perm_seed_iter c2)) as [[[ind' seed]|] it].
      * eapply later_context_trans; [exact Hres|]. apply (IH _ _ _ _ _ Hrun).
      * by injection Hrun as <- <- <-.
Qed.

Lemma drain_later hb events : forall c w w' c' rest,
  drain_loop hb events c w = (w', Ret (c', rest)) ->
  later_context (context c) (context c').
Proof.
  induction events as [|e events IH]; intros c w w' c' rest Hrun;
    rewrite drain_loop_unfold in Hrun;
    destruct (0 <? active_workers c);
    try (injection Hrun as <- <- <-; apply later_context_refl);
    apply io_bind_inv in Hrun as (w1 & [] & _ & Hrun); [discriminate|].
  destruct e as [fb|]; [|discriminate].
  destruct fb as [| |ind res].
  - apply (IH _ _ _ _ _ Hrun).
  - apply (IH _ _ _ _ _ Hrun).
  - destruct (negb _).
    + apply io_bind_inv in Hrun as (w2 & [ctx zero] & Hres & Hrun).
      apply process_result_later in Hres as [Hres _].
      eapply later_context_trans; [exact Hres|]. apply (IH _ _ _ _ _ Hrun).
    + apply (IH _ _ _ _ _ Hrun).
Qed.

Lemma load_permuters_length load_permuter hb options rng ds : forall w w' ps counts,
  load_permuters load_permuter hb options ds rng w = (w', Ret (ps, counts)) ->
  length ps = length ds.
Proof.
  induction ds as [|d ds IH]; intros w w' ps counts Hrun; simpl in Hrun.
  - by injection Hrun as <- <- <-.
  - apply io_bind_inv in Hrun as (w1 & [] & _ & Hrun).
    apply io_bind_inv in Hrun as (w2 & permuter & _ & Hrun).
    apply io_bind_inv in Hrun as (w3 & [ps' counts'] & Hrest & Hrun).
    injection Hrun as <- <- <-. simpl. f_equal. apply (IH _ _ _ _ Hrest).
Qed.

(** The loop over the loaded permuters changes names only. *)
Lemma announce_scores counts ps : forall w,
  exists w' ps',
    announce counts ps w = (w', Ret ps')
    /\ map best_score ps' = map best_score ps.
Proof.
  induction ps as [|p ps IH]; intros w; simpl; [by eexists _, _|].
  erewrite io_bind_ret by reflexivity.
  match goal with |- context [io_bind (announce counts ps) _ ?w1] =>
    destruct (IH w1) as (w' & ps' & Hrun & Hscores) end.
  rewrite (io_bind_ret _ _ _ _ _ Hrun). eexists _, _. split; [reflexivity|].
  simpl. rewrite Hscores. f_equal. by destruct (1 <? _).
Qed.

End Later.

(** Whenever [run_inner] returns, it returns one score for each
    directory of the options, in their order, and none of them is above
    the best score that the permuter of that directory was loaded
    with: the mode (one thread, or workers and queues), the results and
    the order in which they come in do not matter. *)
Theorem run_inner_scores_not_above_loaded `{ProfilerOps}
    (try_eval_candidate : Permuter -> Z -> EvalResult)
    (load_permuter : Options -> string -> option Z -> IO Permuter)
    (net_threads : nat) (fuel : nat) (events : list GetEvent)
    (options : Options) (hb : IO unit) (w w' : World) (scores : list Z) :
  run_inner try_eval_candidate load_permuter net_threads fuel events options hb w
  = (w', Ret scores) ->
  exists force_rng_seed forced_seed w1 ps name_counts,
    parse_force_seed (force_seed options) = Ret (force_rng_seed, forced_seed)
    /\ load_permuters load_permuter hb options (directories options) force_rng_seed
         (fst (print "Loading..." w))
       = (w1, Ret (ps, name_counts))
    /\ length scores = length (directories options)
    /\ Forall2 (fun s p => s <= best_score p) scores ps.
Proof.
  unfold run_inner. intros Hrun.
  apply io_bind_inv in Hrun as (w0 & [] & Hprint & Hrun).
  apply io_bind_inv in Hrun as (w0' & [force_rng_seed force_seed] & Hparse & Hrun).
  unfold lift in Hparse. injection Hparse as <- Hparse.
  apply io_bind_inv in Hrun as (w1 & [ps name_counts] & Hload & Hrun).
  apply io_bind_inv in Hrun as (w2 & [] & _ & Hrun).
  destruct (announce_scores name_counts ps w2) as (w3 & ps' & Hann & Hscores).
  rewrite (io_bind_ret _ _ _ _ _ Hann) in Hrun.
  apply io_bind_inv in Hrun as (w4 & [ctx zero] & Hloops & Hrun).
  apply io_bind_inv in Hrun as (w5 & [] & _ & Hrun).
  unfold io_ret in Hrun. injection Hrun as <- <-.
  set (ctx0 := {| options := options; iteration := 0; errors := 0;
                  overall_profiler := new_profiler; permuters := ps' |}) in *.
  assert (later_context ctx0 ctx) as (_ & _ & Hlater).
  { destruct ((threads options =? 1) && negb (use_network options)).
    - by apply single_loop_later in Hloops.
    - destruct (_ =? 0).
      + apply io_bind_inv in Hloops as (? & [] & _ & Hexit). discriminate.
      + apply io_bind_inv in Hloops as (w6 & [c rest] & Hdispatch & Hloops).
        apply io_bind_inv in Hloops as (w7 & [c' rest'] & Hdrain & Hloops).
        unfold io_ret in Hloops. injection Hloops as <- <- <-.
        apply dispatch_later in Hdispatch. apply drain_later in Hdrain.
        eapply later_context_trans; [exact Hdispatch|exact Hdrain]. }
  exists force_rng_seed, force_seed, w1, ps, name_counts.
  assert (w0 = fst (print "Loading..." w)) as <- by (by rewrite Hprint).
  split; [done|]. split; [done|].
  pose proof (load_permuters_length _ _ _ _ _ _ _ _ _ Hload) as Hlen.
  simpl in Hlater.
  assert (Forall2 Z.le (map best_score (permuters ctx)) (map best_score ps')) as Hle.
  { apply Forall2_fmap. apply Forall2_flip.
    eapply Forall2_impl; [exact Hlater|]. by intros p p' (Hb & _). }
  rewrite Hscores in Hle. change (map best_score ps) with (best_score <$> ps) in Hle.
  rewrite Forall2_fmap_r in Hle.
  split; [|exact Hle].
  apply Forall2_length in Hle. rewrite Hle. done.
Qed.

Lemma run_inner_scores_not_above_loaded_witness :
  exists force_rng_seed forced_seed w1 ps name_counts,
    parse_force_seed (force_seed sample_options)
    = Ret (force_rng_seed, forced_seed)
    /\ load_permuters
         (fun _ d _ => io_ret (sample_permuter d 100 false (SeedList [1])))
         heartbeat sample_options (directories sample_options) force_rng_seed
         (fst (print "Loading..." sample_world))
       = (w1, Ret (ps, name_counts))
    /\ length [1; 1; 1] = length (directories sample_options)
    /\ Forall2 (fun s p => s <= best_score p) [1; 1; 1] ps.
Proof.
  eapply (run_inner_scores_not_above_loaded (fun _ _ => scored 1 "h")
            (fun _ d _ => io_ret (sample_permuter d 100 false (SeedList [1])))
            0 0
            [Receives FbNeedMoreWork; Receives FbNeedMoreWork;
             Receives (FbResult 0 (scored 1 "h")); Receives (FbResult 1 (scored 1 "h"));
             Receives (FbResult 2 (scored 1 "h"));
             Receives FbFinished; Receives FbFinished]
            sample_options heartbeat sample_world).
  vm_compute. reflexivity.
Defined.

(** How a call of [post_score] can end.  It returns: then a scored
    result has taken [iteration] up by one and [errors] up by one
    exactly when it has no score, an [EvalError] has left both as they
    were, the options and the list of permuters are the same, the
    permuter has at most a lower best score and more hashes, and the
    boolean is true exactly for a result of score 0, whether its hash
    was new or not.  It exits with status 1: then the result is an
    [EvalError] and [abort_exceptions] is set.  It raises: then the
    result is scored, and either it carries no source and an assertion
    has failed, or [print_diffs] is set and the read of a key has
    raised ([EOFError] at the end of the standard input,
    [KeyboardInterrupt] on a Ctrl+C).  It does not come back: then the
    result is scored, [print_diffs] is set and no key ever comes. *)
Theorem post_score_outcomes `{ProfilerOps}
    (context : EvalContext) (permuter : Permuter) (result : EvalResult) (w : World) :
  match snd (post_score context permuter result w) with
  | Ret (context', permuter', zero) =>
      iteration context' - iteration context
      = match result with Scored _ => 1 | Failed _ => 0 end
      /\ errors context' - errors context
         = match result with
           | Scored {| score := None |} => 1
           | _ => 0
           end
      /\ options context' = options context
      /\ permuters context' = permuters context
      /\ later_permuter permuter permuter'
      /\ (zero = true <-> exists r, result = Scored r /\ score r = Some 0)
  | Exit code =>
      code = 1 /\ abort_exceptions (options context) = true
      /\ exists e, result = Failed e
  | Raise e =>
      exists r, result = Scored r
                /\ ((source r = None /\ exists msg, e = AssertionError msg)
                    \/ (print_diffs (options context) = true
                        /\ (e = EOFError \/ e = KeyboardInterrupt)
                        /\ key_press w = Raise e))
  | Diverge =>
      (exists r, result = Scored r)
      /\ print_diffs (options context) = true /\ stdin w = []
  end.
Proof.
  pose proof (post_score_later context permuter result w) as Hlater.
  destruct result as [r|e].
  - pose proof (post_score_scored context permuter r w) as Hpost.
    destruct (snd (post_score context permuter (Scored r) w))
      as [[[context' permuter'] zero]| |e|]; [|done| |].
    2: { exists r. split; [done|].
         destruct Hpost as [Hsrc|[Hdiffs Hkey]]; [by left|right].
         split; [done|]. split; [|done].
         unfold key_press in Hkey. destruct (stdin w) as [|[l| |] rest]; try done;
           injection Hkey as <-; auto. }
    2: { destruct Hpost as [Hdiffs Hkey]. split; [eauto|]. split; [done|].
         unfold key_press in Hkey. by destruct (stdin w) as [|[l| |] rest]. }
    destruct Hpost as (Hit & Her & Hopt & Hps & Hperm & _).
    destruct Hlater as (_ & _ & _ & Hzero).
    split; [lia|]. split; [destruct r as [[s|] ? ? ?]; simpl in *; lia|]. done.
  - rewrite post_score_failed in *.
    destruct (abort_exceptions (options context)); [done|].
    destruct Hlater as (_ & _ & Hperm & Hzero).
    split; [lia|]. split; [lia|]. done.
Qed.

(** ** The seed option *)

Section SeedOption.

Lemma split_nonempty c s : split c s <> [].
Proof.
  destruct s as [|a s]; simpl; [done|].
  destruct (Ascii.eqb a c); [done|]. by destruct (split c s).
Qed.

Lemma int_outcomes s : (exists n, int s = Ret n) \/ int s = Raise ValueError.
Proof. unfold int. destruct (NilZero.int_of_string s); eauto. Qed.

Lemma map_int_outcomes parts :
  (Exists (fun part => int part = Raise ValueError) parts
   /\ map_outcome int parts = Raise ValueError)
  \/ (exists nums, Forall2 (fun part n => int part = Ret n) parts nums
                   /\ map_outcome int parts = Ret nums).
Proof.
  induction parts as [|part parts IH]; simpl.
  - right. exists []. by split.
  - destruct (int_outcomes part) as [[n Hn]| Hbad].
    + rewrite Hn. simpl.
      destruct IH as [[Hex ->]|(nums & Hall & ->)]; simpl.
      * left. split; [by apply Exists_cons_tl|done].
      * right. exists (n :: nums). split; [by constructor|done].
    + rewrite Hbad. simpl. left. split; [by apply Exists_cons_hd|done].
Qed.

Lemma index_first {A} (l : list A) x : head l = Some x -> Py.index l 0 = Ret x.
Proof.
  destruct l as [|y l]; [done|]. intros [= ->]. unfold Py.index.
  assert ((0 <? 0) = false) as -> by done.
  assert ((0 <=? 0) && (0 <? Z.of_nat (length (x :: l))) = true) as ->
    by (apply andb_true_intro; split; [done|apply Z.ltb_lt; rewrite length_cons; lia]).
  done.
Qed.

Lemma index_last {A} (l : list A) x : last l = Some x -> Py.index l (-1) = Ret x.
Proof.
  intros Hlast. rewrite last_lookup in Hlast.
  pose proof (lookup_lt_Some _ _ _ Hlast) as Hlt.
  unfold Py.index.
  assert ((-1 <? 0) = true) as -> by done.
  assert ((0 <=? -1 + Z.of_nat (length l)) && (-1 + Z.of_nat (length l) <? Z.of_nat (length l))
          = true) as -> by (apply andb_true_intro; split; lia).
  replace (Z.to_nat (-1 + Z.of_nat (length l))) with (pred (length l)) by lia.
  by rewrite Hlast.
Qed.

End SeedOption.

(** A seed option written with decimal digits, minus signs and commas
    (and short enough for [int]'s limit on the number of digits) is
    split at its commas and every part is read as a number.  If a
    part is not a number (it is empty, or has a minus sign elsewhere
    than in front of its digits) the result is a [ValueError].
    Otherwise the last number is the seed of the random number
    generator, and the forced seed is the first number, or 0 when
    there is one number only; numbers in between are ignored. *)
Theorem parse_force_seed_outcomes (s : string) :
  s <> "" -> plain s = true -> (String.length s <= 4300)%nat ->
  (Exists (fun part => int part = Raise ValueError) (split ","%char s)
   /\ parse_force_seed (Some s) = Raise ValueError)
  \/ (exists nums first final,
        Forall2 (fun part n => int part = Ret n) (split ","%char s) nums
        /\ head nums = Some first /\ last nums = Some final
        /\ parse_force_seed (Some s)
           = Ret (Some final, Some (if decide (length nums = 1%nat) then 0 else first))).
Proof.
  intros Hs _ _. unfold parse_force_seed.
  destruct (String.eqb_spec s "") as [|_]; [done|].
  destruct (map_int_outcomes (split ","%char s)) as [[Hex ->]|(nums & Hall & ->)];
    [by left|right].
  assert (nums <> []) as Hne.
  { intros ->. apply Forall2_nil_inv_r in Hall. by apply split_nonempty in Hall. }
  destruct nums as [|first nums]; [done|].
  destruct (last (first :: nums)) as [final|] eqn:Hlast;
    [|by apply last_None in Hlast].
  exists (first :: nums), first, final.
  split; [done|]. split; [done|]. split; [done|].
  cbn [bind]. rewrite (index_last _ _ Hlast). cbn [bind].
  destruct (decide (length (first :: nums) = 1%nat)) as [E|E].
  - apply Nat.eqb_eq in E. by rewrite E.
  - apply Nat.eqb_neq in E. rewrite E. by rewrite (index_first (first :: nums) first).
Qed.

Lemma parse_force_seed_outcomes_witness :
  "1,2,3" <> "" /\ plain "1,2,3" = true /\ (String.length "1,2,3" <= 4300)%nat
  /\ ((Exists (fun part => int part = Raise ValueError) (split ","%char "1,2,3")
       /\ parse_force_seed (Some "1,2,3") = Raise ValueError)
      \/ (exists nums first final,
            Forall2 (fun part n => int part = Ret n) (split ","%char "1,2,3") nums
            /\ head nums = Some first /\ last nums = Some final
            /\ parse_force_seed (Some "1,2,3")
               = Ret (Some final,
                      Some (if decide (length nums = 1%nat) then 0 else first)))).
Proof.
  assert (String.length "1,2,3" <= 4300)%nat as Hlen by (apply Nat.leb_le; reflexivity).
  split; [discriminate|]. split; [reflexivity|]. split; [exact Hlen|].
  apply (parse_force_seed_outcomes "1,2,3"); [discriminate|reflexivity|exact Hlen].
Defined.

(** A forced seed of 0 is no forced seed: with [--seed N] and with
    [--seed 0,N] the random number generator is seeded with [N] and
    the generator of tasks goes through the seed spaces of the
    permuters exactly as it does without the option. *)
Theorem zero_forced_seed_is_no_forced_seed (ps : list Permuter) (b : Z) (n : nat)
    (text : string) :
  text = str b \/ text = "0," +:+ str b ->
  bind (parse_force_seed (Some text))
    (fun seeds => Ret (seeds.1, cycle_take n (cycle_seeds ps seeds.2)))
  = Ret (Some b, cycle_take n (cycle_seeds ps None)).
Proof.
  intros [-> | ->].
  - by rewrite parse_single.
  - change ("0," +:+ str b) with (str 0 +:+ "," +:+ str b). by rewrite parse_pair.
Qed.

Lemma zero_forced_seed_is_no_forced_seed_witness :
  bind (parse_force_seed (Some "0,7"))
    (fun seeds => Ret (seeds.1, cycle_take 6 (cycle_seeds three_targets seeds.2)))
  = Ret (Some 7, cycle_take 6 (cycle_seeds three_targets None)).
Proof.
  apply (zero_forced_seed_is_no_forced_seed three_targets 7 6 "0,7").
  right. reflexivity.
Defined.

(** ** The worker's answers *)

Section WorkerAnswers.

Lemma index_outcomes {A} (l : list A) (i : Z) :
  (exists x, Py.index l i = Ret x) \/ Py.index l i = Raise IndexError.
Proof.
  unfold Py.index. destruct (_ && _); [|by right].
  destruct (l !! _); eauto.
Qed.

Lemma last_cons_nonempty {A} (x y : A) (l : list A) :
  y ∈ l -> last (x :: l) = last l.
Proof. destruct l; [by intros ?%elem_of_nil|done]. Qed.

End WorkerAnswers.

(** The worker answers the items that it pulls one by one and in the
    order of the queue: [NeedMoreWork] for a [None], [Finished] for a
    [Finished], the result of [try_eval_candidate] on the permuter and
    seed for a task.  Of what arrived nothing is lost but, at most, the
    last item pulled, in two cases: a task whose index names no
    permuter, at which the worker dies of an [IndexError], and the item
    that the worker was on when a Ctrl+C came, which gets no answer
    while the worker returns.  Once it has sent [Finished] it sends
    nothing more and has returned. *)
Theorem worker_answers_in_order `{ProfilerOps}
    (try_eval_candidate : Permuter -> Z -> EvalResult) (permuters : list Permuter)
    (script : list WorkerEvent) (input_queue : list (option Task)) :
  exists pulled dropped k,
    input_queue ++ puts_of (take k script)
    = pulled ++ dropped
      ++ left_in_queue (multiprocess_worker try_eval_candidate permuters script input_queue)
    /\ Forall2 (fun item fb => respond try_eval_candidate permuters item = Some fb)
         pulled (sent (multiprocess_worker try_eval_candidate permuters script input_queue))
    /\ (dropped = []
        \/ exists item,
             dropped = [item]
             /\ ((respond try_eval_candidate permuters item = None
                  /\ ending (multiprocess_worker try_eval_candidate permuters script
                               input_queue)
                     = WorkerDied IndexError)
                 \/ (ending (multiprocess_worker try_eval_candidate permuters script
                               input_queue)
                     = WorkerReturned
                     /\ exists items, CtrlCAtWork items ∈ script)))
    /\ (FbFinished
          ∈ sent (multiprocess_worker try_eval_candidate permuters script input_queue) ->
        last (sent (multiprocess_worker try_eval_candidate permuters script input_queue))
        = Some FbFinished
        /\ ending (multiprocess_worker try_eval_candidate permuters script input_queue)
           = WorkerReturned).
Proof.
  unfold multiprocess_worker. revert input_queue. generalize false.
  induction script as [|e script IH]; intros should_block input_queue.
  { exists [], [], 0%nat. simpl. rewrite app_nil_r.
    split; [done|]. split; [constructor|]. split; [by left|].
    by intros ?%elem_of_nil. }
  assert (forall (r : WorkerRun) dropped,
            dropped = []
            \/ (exists item,
                  dropped = [item]
                  /\ ((respond try_eval_candidate permuters item = None
                       /\ ending r = WorkerDied IndexError)
                      \/ (ending r = WorkerReturned
                          /\ exists items, CtrlCAtWork items ∈ script))) ->
            dropped = []
            \/ (exists item,
                  dropped = [item]
                  /\ ((respond try_eval_candidate permuters item = None
                       /\ ending r = WorkerDied IndexError)
                      \/ (ending r = WorkerReturned
                          /\ exists items, CtrlCAtWork items ∈ e :: script)))) as Hlift.
  { intros r dropped [->|(item & -> & [Hbad|[Hend [items Hin]]])]; [by left| |].
    - right. exists item. split; [done|]. by left.
    - right. exists item. split; [done|]. right. split; [done|].
      exists items. by apply elem_of_cons; right. }
  destruct e as [items| |items].
  2: { exists [], [], 0%nat. simpl. rewrite app_nil_r.
       split; [done|]. split; [constructor|]. split; [by left|].
       by intros ?%elem_of_nil. }
  2: { cbn [worker_loop]. unfold queue_get.
       destruct (input_queue ++ items) as [|item rest] eqn:Equeue.
       - exists [], [], 1%nat. cbn [take puts_of]. rewrite app_nil_r, Equeue.
         destruct should_block; cbn [sent left_in_queue ending];
           (split; [done|]; split; [constructor|]; split; [by left|];
            by intros ?%elem_of_nil).
       - exists [], [item], 1%nat. cbn [take puts_of sent left_in_queue ending].
         rewrite app_nil_r, Equeue. split; [done|]. split; [constructor|].
         split; [|by intros ?%elem_of_nil].
         right. exists item. split; [done|]. right. split; [done|].
         exists items. by apply elem_of_cons; left. }
  cbn [worker_loop]. unfold worker_body, queue_get.
  destruct (input_queue ++ items) as [|item rest] eqn:Equeue.
  - destruct should_block.
    + destruct (IH true []) as (pulled & dropped & k & Hq & Hsent & Hdrop & Hfin).
      exists pulled, dropped, (S k). cbn [take puts_of].
      rewrite app_assoc, Equeue. split; [done|]. split; [done|]. split; [|done].
      by apply Hlift.
    + exists [], [], 1%nat. cbn [take puts_of sent left_in_queue ending].
      rewrite app_nil_r. split; [done|]. split; [constructor|]. split; [by left|].
      by intros ?%elem_of_nil.
  - destruct item as [[|permuter_index seed]|].
    + exists [Some TaskFinished], [], 1%nat.
      cbn [take puts_of sent left_in_queue ending].
      rewrite app_nil_r, Equeue. split; [done|].
      split; [by repeat constructor|]. split; [by left|]. done.
    + destruct (index_outcomes permuters permuter_index) as [[permuter Hp]|Hbad].
      * rewrite Hp.
        destruct (IH false rest) as (pulled & dropped & k & Hq & Hsent & Hdrop & Hfin).
        exists (Some (TaskWork permuter_index seed) :: pulled), dropped, (S k).
        cbn [take puts_of sent left_in_queue ending].
        rewrite app_assoc, Equeue. split; [by rewrite <- !app_comm_cons, Hq|].
        split; [constructor; [by simpl; rewrite Hp|done]|].
        split; [by apply Hlift|].
        intros [Hhd|Htl]%elem_of_cons; [done|].
        destruct (Hfin Htl) as [Hlast Hend]. split; [|done].
        simpl app. by rewrite (last_cons_nonempty _ _ _ Htl).
      * rewrite Hbad.
        exists [], [Some (TaskWork permuter_index seed)], 1%nat.
        cbn [take puts_of sent left_in_queue ending].
        rewrite app_nil_r, Equeue. split; [done|]. split; [constructor|].
        split; [|by intros ?%elem_of_nil].
        right. eexists. split; [done|]. left. split; [|done]. simpl. by rewrite Hbad.
    + destruct (IH true rest) as (pulled & dropped & k & Hq & Hsent & Hdrop & Hfin).
      exists (None :: pulled), dropped, (S k).
      cbn [take puts_of sent left_in_queue ending].
      rewrite app_assoc, Equeue. split; [by rewrite <- !app_comm_cons, Hq|].
      split; [by constructor|]. split; [by apply Hlift|].
      intros [Hhd|Htl]%elem_of_cons; [done|].
      destruct (Hfin Htl) as [Hlast Hend]. split; [|done].
      simpl app. by rewrite (last_cons_nonempty _ _ _ Htl).
Qed.

(** ** One task for each feedback *)

Section Dispatch.
Context `{ProfilerOps}.

Lemma next_task_work_items it item it' n :
  next_task it = (Some item, it') ->
  work_items it (S n) = TaskWork item.1 item.2 :: work_items it' n.
Proof.
  destruct it as [st|]; [|done]. unfold next_task, work_items.
  rewrite cycle_take_S.
  destruct (cycle_next st) as [item0 st'| |]; try done.
  intros [= <- <-]. by destruct (cycle_take n st').
Qed.

End Dispatch.

(** The first loop of [run_inner] puts tasks on the queue one for one
    against what it takes from the feedback queue.  When it returns it
    has put the next [n] items of the generator on the task queue, in
    the generator's order and after what was there, and no [Finished];
    it has taken [n] or [n + 1] items other than [Finished] from the
    feedback queue (one more when it left through a [break]); the count
    of active workers is down by the number of [Finished] it took; and
    [found_zero] is set only if it was set before or a result of score
    0 came in. *)
Theorem dispatch_one_task_per_feedback `{ProfilerOps}
    (hb : IO unit) (events : list GetEvent) (c c' : Coordinator)
    (w w' : World) (rest : list GetEvent) :
  dispatch_loop hb events c w = (w', Ret (c', rest)) ->
  exists consumed n,
    events = consumed ++ rest
    /\ task_queue c' = task_queue c ++ work_items (perm_seed_iter c) n
    /\ length (work_items (perm_seed_iter c) n) = n
    /\ (n <= requests consumed <= S n)%nat
    /\ active_workers c' = active_workers c - Z.of_nat (acks consumed)
    /\ (found_zero c' = true -> found_zero c = true \/ Exists zero_result consumed).
Proof.
  revert c w w' c' rest.
  induction events as [|e events IH]; intros c w w' c' rest Hrun;
    rewrite dispatch_loop_unfold in Hrun;
    destruct (0 <? active_workers c) eqn:Hact;
    try (injection Hrun as <- <- <-; exists [], 0%nat;
         assert (work_items (perm_seed_iter c) 0 = []) as ->
           by (by destruct (perm_seed_iter c));
         simpl; rewrite app_nil_r; repeat split; try done; try lia; by left);
    apply io_bind_inv in Hrun as (w1 & [] & _ & Hrun); [discriminate|].
  destruct e as [fb|]; [|discriminate].
  destruct fb as [| |ind res].
  - destruct (IH _ _ _ _ _ Hrun) as (consumed & n & -> & Hq & Hlen & Hreq & Hw & Hz).
    exists (Receives FbFinished :: consumed), n. simpl in *.
    split; [done|]. split; [done|]. split; [done|]. split; [done|].
    split; [lia|]. intros Hzero. destruct (Hz Hzero); [by left|right].
    by apply Exists_cons_tl.
  - apply io_bind_inv in Hrun as (w2 & [c2 stop] & Hstep & Hrun).
    injection Hstep as <- <- <-.
    destruct (next_task (perm_seed_iter c)) as [[[ind seed]|] it] eqn:Hnext.
    + destruct (IH _ _ _ _ _ Hrun) as (consumed & n & -> & Hq & Hlen & Hreq & Hw & Hz).
      exists (Receives FbNeedMoreWork :: consumed), (S n). simpl in *.
      rewrite (next_task_work_items _ _ _ n Hnext). simpl.
      split; [done|]. split; [by rewrite Hq, <- app_assoc|]. split; [by rewrite Hlen|].
      split; [lia|]. split; [done|].
      intros Hzero. destruct (Hz Hzero); [by left|right]. by apply Exists_cons_tl.
    + injection Hrun as <- <- <-. exists [Receives FbNeedMoreWork], 0%nat. simpl.
      assert (work_items (perm_seed_iter c) 0 = []) as -> by (by destruct (perm_seed_iter c)).
      rewrite app_nil_r. repeat split; try done; try lia. by left.
  - apply io_bind_inv in Hrun as (w2 & [c2 stop] & Hstep & Hrun).
    apply io_bind_inv in Hstep as (w3 & [ctx zero] & Hres & Hstep).
    apply process_result_later in Hres as [_ Hres].
    assert (task_queue c2 = task_queue c /\ perm_seed_iter c2 = perm_seed_iter c
            /\ active_workers c2 = active_workers c
            /\ (found_zero c2 = true ->
                found_zero c = true \/ zero_result (Receives (FbResult ind res))))
      as (Hq2 & Hit2 & Hw2 & Hz2).
    { destruct zero.
      - destruct (Hres eq_refl) as (r & -> & Hr).
        injection Hstep as <- <- <-. simpl. repeat split; try done.
        intros _. right. by exists ind, r.
      - injection Hstep as <- <- <-. simpl. repeat split; try done. by left. }
    destruct stop.
    + injection Hrun as <- <- <-. exists [Receives (FbResult ind res)], 0%nat. simpl.
      assert (work_items (perm_seed_iter c) 0 = []) as -> by (by destruct (perm_seed_iter c)).
      rewrite app_nil_r. split; [done|]. split; [done|]. split; [done|].
      split; [lia|]. split; [lia|].
      intros Hzero. destruct (Hz2 Hzero); [by left|right]. by apply Exists_cons_hd.
    + destruct (next_task (perm_seed_iter c2)) as [[[ind' seed]|] it] eqn:Hnext.
      * destruct (IH _ _ _ _ _ Hrun) as (consumed & n & -> & Hq & Hlen & Hreq & Hw & Hz).
        exists (Receives (FbResult ind res) :: consumed), (S n). simpl in *.
        rewrite Hit2 in Hnext.
        rewrite (next_task_work_items _ _ _ n Hnext). simpl.
        split; [done|]. split; [by rewrite Hq, Hq2, <- app_assoc|].
        split; [by rewrite Hlen|].
        split; [lia|]. split; [lia|].
        intros Hzero. destruct (Hz Hzero) as [Hold|Hnew].
        -- destruct (Hz2 Hold); [by left|right]. by apply Exists_cons_hd.
        -- right. by apply Exists_cons_tl.
      * injection Hrun as <- <- <-. exists [Receives (FbResult ind res)], 0%nat. simpl.
        assert (work_items (perm_seed_iter c) 0 = []) as ->
          by (by destruct (perm_seed_iter c)).
        rewrite app_nil_r. split; [done|]. split; [done|]. split; [done|].
        split; [lia|]. split; [lia|].
        intros Hzero. destruct (Hz2 Hzero); [by left|right]. by apply Exists_cons_hd.
Qed.

Lemma dispatch_one_task_per_feedback_witness :
  exists consumed n,
    [Receives FbNeedMoreWork; Receives FbFinished] = consumed ++ []
    /\ task_queue fed_coordinator
       = task_queue feeding_coordinator
         ++ work_items (perm_seed_iter feeding_coordinator) n
    /\ length (work_items (perm_seed_iter feeding_coordinator) n) = n
    /\ (n <= requests consumed <= S n)%nat
    /\ active_workers fed_coordinator
       = active_workers feeding_coordinator - Z.of_nat (acks consumed)
    /\ (found_zero fed_coordinator = true ->
        found_zero feeding_coordinator = true \/ Exists zero_result consumed).
Proof.
  apply (dispatch_one_task_per_feedback heartbeat
           [Receives FbNeedMoreWork; Receives FbFinished]
           feeding_coordinator fed_coordinator sample_world
           (fst (heartbeat (fst (heartbeat sample_world)))) []).
  vm_compute. reflexivity.
Defined.

(** ** Results that come in after a zero score *)

(** Under [stop_on_zero], once a zero score has been found the second
    loop of [run_inner] throws away the results that still come in: it
    does not call [post_score] on them, so when it returns the context
    (the counters, the permuters with their best scores and hashes) is
    as it was, and nothing has been printed or written. *)
Theorem drain_discards_after_zero `{ProfilerOps}
    (events : list GetEvent) (c c' : Coordinator) (w w' : World)
    (rest : list GetEvent) :
  stop_on_zero (options (context c)) = true -> found_zero c = true ->
  drain_loop heartbeat events c w = (w', Ret (c', rest)) ->
  context c' = context c /\ found_zero c' = true /\ task_queue c' = task_queue c
  /\ stdout w' = stdout w /\ stderr w' = stderr w /\ dirs w' = dirs w.
Proof.
  revert c w w' c' rest.
  induction events as [|e events IH]; intros c w w' c' rest Hstop Hzero Hrun;
    rewrite drain_loop_unfold in Hrun;
    destruct (0 <? active_workers c);
    try (injection Hrun as <- <- <-; done);
    apply io_bind_inv in Hrun as (w1 & [] & Hhb & Hrun); [discriminate|].
  assert (stdout w1 = stdout w /\ stderr w1 = stderr w /\ dirs w1 = dirs w)
    as (Hout & Herr & Hdirs) by (by injection Hhb as <-).
  rewrite <- Hout, <- Herr, <- Hdirs.
  destruct e as [fb|]; [|discriminate].
  destruct fb as [| |ind res].
  - apply (IH (set_active c (active_workers c - 1)) w1 w' c' rest Hstop Hzero Hrun).
  - apply (IH c w1 w' c' rest Hstop Hzero Hrun).
  - rewrite Hstop, Hzero in Hrun. simpl in Hrun.
    apply (IH c w1 w' c' rest Hstop Hzero Hrun).
Qed.

Lemma drain_discards_after_zero_witness :
  context (set_active stopping_coordinator 0) = context stopping_coordinator
  /\ found_zero (set_active stopping_coordinator 0) = true
  /\ task_queue (set_active stopping_coordinator 0) = task_queue stopping_coordinator
  /\ stdout (fst (heartbeat (fst (heartbeat sample_world)))) = stdout sample_world
  /\ stderr (fst (heartbeat (fst (heartbeat sample_world)))) = stderr sample_world
  /\ dirs (fst (heartbeat (fst (heartbeat sample_world)))) = dirs sample_world.
Proof.
  apply (drain_discards_after_zero
           [Receives (FbResult 1 (scored 0 "z")); Receives FbFinished]
           stopping_coordinator (set_active stopping_coordinator 0) sample_world
           (fst (heartbeat (fst (heartbeat sample_world)))) []);
    [reflexivity|reflexivity|vm_compute; reflexivity].
Defined.

(** ** Unique names *)

Section Names.
Context `{ProfilerOps}.

Lemma load_permuters_counts load_permuter hb options rng ds : forall w w' ps counts,
  load_permuters load_permuter hb options ds rng w = (w', Ret (ps, counts)) ->
  forall name, default 0 (counts !! name) = name_count ps name.
Proof.
  induction ds as [|d ds IH]; intros w w' ps counts Hrun name; simpl in Hrun.
  - by injection Hrun as <- <- <-.
  - apply io_bind_inv in Hrun as (w1 & [] & _ & Hrun).
    apply io_bind_inv in Hrun as (w2 & permuter & _ & Hrun).
    apply io_bind_inv in Hrun as (w3 & [ps' counts'] & Hrest & Hrun).
    injection Hrun as <- <- <-.
    pose proof (IH _ _ _ _ Hrest) as Hcounts. unfold name_count in *.
    destruct (decide (fn_name permuter = name)) as [<-|Hne].
    + rewrite lookup_insert_eq, filter_cons_True by done. simpl.
      rewrite Hcounts. lia.
    + rewrite lookup_insert_ne, filter_cons_False by done. apply Hcounts.
Qed.

Lemma announce_renames counts all ps : forall w,
  (forall name, default 0 (counts !! name) = name_count all name) ->
  exists w',
    announce counts ps w = (w', Ret (with_directory all <$> ps))
    /\ stdout w'
       = stdout w
         ++ ((fun p => ("[" +:+ unique_name p +:+ "] base score = "
                        +:+ str (best_score p)) +:+ NL)
               <$> (with_directory all <$> ps))
    /\ stderr w' = stderr w /\ dirs w' = dirs w.
Proof.
  induction ps as [|p ps IH]; intros w Hcounts.
  - exists w. simpl. by rewrite app_nil_r.
  - assert ((if 1 <? default 0 (counts !! fn_name p)
             then set_unique_name p (unique_name p +:+ " (" +:+ dir p +:+ ")")
             else p) = with_directory all p) as Hp
      by (unfold with_directory; by rewrite Hcounts).
    cbn [announce]. cbv zeta. rewrite !Hp.
    erewrite io_bind_ret by reflexivity.
    match goal with |- context [io_bind (announce counts ps) _ ?w1] =>
      destruct (IH w1 Hcounts) as (w' & Hrun & Hout & Herr & Hdirs) end.
    rewrite (io_bind_ret _ _ _ _ _ Hrun). exists w'.
    split; [reflexivity|]. rewrite Hout. simpl. rewrite <- app_assoc.
    split; [reflexivity|]. by split.
Qed.

End Names.

(** After the permuters are loaded, each of them is announced with its
    best score, in the order of the directories; the unique name of a
    permuter gets its directory added in parentheses exactly when
    another loaded permuter has the same function name, and nothing
    else about the permuters changes. *)
Theorem shared_names_get_directory `{ProfilerOps}
    (load_permuter : Options -> string -> option Z -> IO Permuter) (hb : IO unit)
    (options : Options) (ds : list string) (force_rng_seed : option Z)
    (w w1 w2 : World) (ps : list Permuter) (name_counts : gmap string Z) :
  load_permuters load_permuter hb options ds force_rng_seed w
  = (w1, Ret (ps, name_counts)) ->
  exists w3,
    announce name_counts ps w2 = (w3, Ret (with_directory ps <$> ps))
    /\ stdout w3
       = stdout w2
         ++ ((fun p => ("[" +:+ unique_name p +:+ "] base score = "
                        +:+ str (best_score p)) +:+ NL)
               <$> (with_directory ps <$> ps))
    /\ stderr w3 = stderr w2 /\ dirs w3 = dirs w2.
Proof.
  intros Hload. apply announce_renames.
  apply (load_permuters_counts _ _ _ _ _ _ _ _ _ Hload).
Qed.

Lemma shared_names_get_directory_witness :
  exists w3,
    announce {["func" := 3]}
      ((fun d => sample_permuter d 100 false (SeedList [1])) <$> ["a"; "b"; "c"])
      sample_world
    = (w3, Ret (with_directory
                  ((fun d => sample_permuter d 100 false (SeedList [1])) <$> ["a"; "b"; "c"])
                <$> ((fun d => sample_permuter d 100 false (SeedList [1]))
                       <$> ["a"; "b"; "c"])))
    /\ stdout w3
       = stdout sample_world
         ++ ((fun p => ("[" +:+ unique_name p +:+ "] base score = "
                        +:+ str (best_score p)) +:+ NL)
               <$> (with_directory
                      ((fun d => sample_permuter d 100 false (SeedList [1]))
                         <$> ["a"; "b"; "c"])
                    <$> ((fun d => sample_permuter d 100 false (SeedList [1]))
                           <$> ["a"; "b"; "c"])))
    /\ stderr w3 = stderr sample_world /\ dirs w3 = dirs sample_world.
Proof.
  apply (shared_names_get_directory
           (fun _ d _ => io_ret (sample_permuter d 100 false (SeedList [1])))
           heartbeat sample_options ["a"; "b"; "c"] None sample_world
           (fst (heartbeat (fst (heartbeat (fst (heartbeat sample_world)))))) sample_world).
  vm_compute. reflexivity.
Defined.

(** Without a worker [run_inner] gives up.  When the options ask for no
    local process ([threads] is 0 or negative) and the network gives
    no thread either, then after the permuters are loaded and announced
    [run_inner] prints that no remote servers are available and exits
    with status 1: no candidate is evaluated and nothing is written. *)
Theorem no_workers_exit `{ProfilerOps}
    (try_eval_candidate : Permuter -> Z -> EvalResult)
    (load_permuter : Options -> string -> option Z -> IO Permuter)
    (net_threads : nat) (fuel : nat) (events : list GetEvent)
    (options : Options) (hb : IO unit) (w w1 : World)
    (force_rng_seed forced_seed : option Z) (ps : list Permuter)
    (name_counts : gmap string Z) :
  threads options <= 0 ->
  (use_network options = true -> net_threads = 0%nat) ->
  parse_force_seed (force_seed options) = Ret (force_rng_seed, forced_seed) ->
  load_permuters load_permuter hb options (directories options) force_rng_seed
    (fst (print "Loading..." w))
  = (w1, Ret (ps, name_counts)) ->
  exists w',
    run_inner try_eval_candidate load_permuter net_threads fuel events options hb w
    = (w', Exit 1)
    /\ last (stdout w') = Some ("No remote servers available. Exiting." +:+ NL)
    /\ stderr w' = stderr w1 /\ dirs w' = dirs w1.
Proof.
  intros Hthreads Hnet Hparse Hload. unfold run_inner.
  rewrite (io_bind_ret (print "Loading...") _ w (fst (print "Loading..." w)) tt eq_refl).
  rewrite (io_bind_ret (lift _) _ (fst (print "Loading..." w)) (fst (print "Loading..." w))
             (force_rng_seed, forced_seed)) by (unfold lift; by rewrite Hparse).
  cbv beta iota.
  rewrite (io_bind_ret _ _ _ _ _ Hload). cbv beta iota.
  rewrite (io_bind_ret (print "") _ w1 (fst (print "" w1)) tt eq_refl).
  match goal with |- context [io_bind (announce name_counts ps) _ ?w2] =>
    destruct (announce_renames name_counts ps ps w2
                (load_permuters_counts _ _ _ _ _ _ _ _ _ Hload))
      as (w3 & Hrun & Hout & Herr & Hdirs) end.
  rewrite (io_bind_ret _ _ _ _ _ Hrun).
  assert ((threads options =? 1) && negb (use_network options) = false) as ->.
  { apply andb_false_iff. left. lia. }
  assert (Z.of_nat (if use_network options then net_threads else 0%nat)
          + 0 `max` threads options = 0) as ->.
  { destruct (use_network options); [rewrite Hnet by done|]; lia. }
  simpl. unfold io_bind, print, print_end, sys_exit. simpl.
  eexists. split; [reflexivity|]. simpl.
  split; [by rewrite last_snoc|]. by rewrite Herr, Hdirs.
Qed.

Lemma no_workers_exit_witness :
  exists w',
    run_inner (fun _ _ => scored 1 "h")
      (fun _ d _ => io_ret (sample_permuter d 100 false (SeedList [1])))
      0 0 []
      {| directories := ["a"]; show_errors := false; show_timings := false;
         print_diffs := false; stack_differences := false; abort_exceptions := false;
         stop_on_zero := false; force_seed := None; threads := 0;
         use_network := false |}
      heartbeat sample_world
    = (w', Exit 1)
    /\ last (stdout w') = Some ("No remote servers available. Exiting." +:+ NL)
    /\ stderr w'
       = stderr (fst (heartbeat (fst (print "Loading..." sample_world))))
    /\ dirs w' = dirs (fst (heartbeat (fst (print "Loading..." sample_world)))).
Proof.
  apply (no_workers_exit (fun _ _ => scored 1 "h")
           (fun _ d _ => io_ret (sample_permuter d 100 false (SeedList [1])))
           0 0 []
           {| directories := ["a"]; show_errors := false; show_timings := false;
              print_diffs := false; stack_differences := false;
              abort_exceptions := false; stop_on_zero := false; force_seed := None;
              threads := 0; use_network := false |}
           heartbeat sample_world
           (fst (heartbeat (fst (print "Loading..." sample_world))))
           None None
           [sample_permuter "a" 100 false (SeedList [1])] {["func" := 1]}).
  - simpl. lia.
  - discriminate.
  - reflexivity.
  - vm_compute. reflexivity.
Defined.

(** A worker that runs out of tasks does not ask for more.  Started on
    a queue of tasks (no [None] among them), the worker answers each of
    them with its result, and stays in non-blocking mode throughout; if
    nothing has arrived by the time it is through, its next pull is
    [get(block=False)] on an empty queue, and the [queue.Empty] that
    this raises ends the worker: no [NeedMoreWork] is sent.  An empty
    queue at the start is the case of no tasks. *)
Theorem worker_dies_when_queue_runs_dry `{ProfilerOps}
    (try_eval_candidate : Permuter -> Z -> EvalResult) (permuters : list Permuter)
    (tasks : list (Z * Z)) (script : list WorkerEvent) :
  Forall (fun t : Z * Z => exists p, Py.index permuters t.1 = Ret p) tasks ->
  exists results,
    multiprocess_worker try_eval_candidate permuters
      (replicate (S (length tasks)) (Puts []) ++ script)
      ((fun t : Z * Z => Some (TaskWork t.1 t.2)) <$> tasks)
    = {| sent := results; left_in_queue := []; ending := WorkerDied QueueEmpty |}
    /\ Forall2 (fun (t : Z * Z) fb =>
                  exists p, Py.index permuters t.1 = Ret p
                            /\ fb = FbResult t.1 (try_eval_candidate p t.2))
         tasks results
    /\ FbNeedMoreWork ∉ results.
Proof.
  unfold multiprocess_worker.
  induction tasks as [|[ind seed] tasks IH]; intros Hvalid.
  - exists []. split; [done|]. split; [constructor|]. by intros ?%elem_of_nil.
  - apply Forall_cons in Hvalid as [[p Hp] Hvalid]. simpl in Hp.
    destruct (IH Hvalid) as (results & Hrun & Hresults & Hnone).
    exists (FbResult ind (try_eval_candidate p seed) :: results).
    change (replicate (S (length ((ind, seed) :: tasks))) (Puts []) ++ script)
      with (Puts [] :: (replicate (S (length tasks)) (Puts []) ++ script)).
    rewrite fmap_cons. cbn [worker_loop]. rewrite app_nil_r.
    unfold worker_body, queue_get. cbn [fst snd]. rewrite Hp, Hrun.
    cbn [sent left_in_queue ending app].
    split; [done|]. split.
    + constructor; [|done]. exists p. by split.
    + intros [Hhd|Htl]%elem_of_cons; [done|by apply Hnone].
Qed.

Lemma worker_dies_when_queue_runs_dry_witness :
  Forall (fun t : Z * Z => exists p, Py.index three_targets t.1 = Ret p) [(0, 1); (1, 7)]
  /\ exists results,
       multiprocess_worker (fun _ _ => scored 1 "h") three_targets
         (replicate 3 (Puts []) ++ [])
         ((fun t : Z * Z => Some (TaskWork t.1 t.2)) <$> [(0, 1); (1, 7)])
       = {| sent := results; left_in_queue := []; ending := WorkerDied QueueEmpty |}
       /\ Forall2 (fun (t : Z * Z) fb =>
                     exists p, Py.index three_targets t.1 = Ret p
                               /\ fb = FbResult t.1 (scored 1 "h"))
            [(0, 1); (1, 7)] results
       /\ FbNeedMoreWork ∉ results.
Proof.
  assert (Forall (fun t : Z * Z => exists p, Py.index three_targets t.1 = Ret p)
            [(0, 1); (1, 7)]) as Hvalid.
  { apply Forall_cons. split; [eexists; reflexivity|].
    apply Forall_cons. split; [eexists; reflexivity|]. constructor. }
  split; [exact Hvalid|].
  exact (worker_dies_when_queue_runs_dry (fun _ _ => scored 1 "h") three_targets
           [(0, 1); (1, 7)] [] Hvalid).
Defined.

(** ** The single-threaded search *)

Section SingleThread.
Context `{ProfilerOps}.

(** One [next] on a generator over finite lists. *)
Lemma finite_next n st :
  finite_state st -> valid_indices n st ->
  match cycle_next st with
  | GenYield item st' =>
      finite_state st' /\ valid_indices n st'
      /\ total_left st = S (total_left st')
      /\ exists j : nat, item.1 = Z.of_nat j /\ (j < n)%nat
  | GenStop => total_left st = 0%nat
  | GenFuel => False
  end.
Proof.
  intros Hfin Hvalid.
  set (P := fun st1 => finite_state st1 /\ valid_indices n st1
                       /\ total_left st1 = total_left st).
  assert (forall st1 st2, P st1 -> loop_body st1 = Dropped st2 -> P st2) as Hdrop.
  { intros st1 st2 (Hf & Hv & Ht) Hbody.
    destruct (finite_dropped st1 st2 Hf Hbody) as (Hf2 & Ht2 & _).
    split; [done|]. split; [|congruence].
    destruct (loop_body_cases st1)
      as [[_ E]|[(k & it & _ & _ & _ & E)|(k & it & item & rest & _ & _ & _ & E)]];
      rewrite E in Hbody; try discriminate.
    injection Hbody as <-. by apply Forall_delete. }
  pose proof (cycle_next_invariant P Hdrop st (conj Hfin (conj Hvalid eq_refl))) as Hnext.
  destruct (cycle_next st) as [item st'| |]; [| |done].
  - destruct Hnext as (st1 & (Hf & Hv & Ht) & Hbody).
    destruct (finite_yielded st1 item st' Hf Hbody) as (Hf' & Hs & _).
    split; [done|].
    destruct (loop_body_cases st1)
      as [[_ E]|[(k & it & _ & _ & _ & E)|(k & it & item' & rest & Hk & Hnext & _ & E)]];
      rewrite E in Hbody; try discriminate.
    injection Hbody as <- <-.
    destruct (Forall_lookup_1 _ _ _ _ Hv Hk) as (j & Hj & Hlt).
    unfold pair_next in Hnext. destruct (seed_next (seeds it)) as [[s r]|]; [|done].
    injection Hnext as <- <-.
    split; [apply Forall_insert; [done|]; simpl; eauto|].
    split; [congruence|]. simpl. eauto.
  - destruct Hnext as (st1 & (_ & _ & Ht) & Hempty).
    rewrite <- Ht. unfold total_left. by rewrite Hempty.
Qed.

(** With [print_diffs] off, a scored result with its source is always
    taken in. *)
Lemma process_result_scored context permuter_index permuter r w :
  print_diffs (options context) = false ->
  Py.index (permuters context) permuter_index = Ret permuter ->
  is_Some (source r) ->
  exists w' context' zero,
    process_result context permuter_index (Scored r) w = (w', Ret (context', zero))
    /\ iteration context' = iteration context + 1
    /\ options context' = options context
    /\ length (permuters context') = length (permuters context).
Proof.
  intros Hdiffs Hindex [src Hsrc]. unfold process_result.
  rewrite (io_bind_ret (lift _) _ w w permuter) by (unfold lift; by rewrite Hindex).
  pose proof (post_score_scored context permuter r w) as Hpost.
  destruct (post_score context permuter (Scored r) w) as [w1 o] eqn:Epost.
  simpl in Hpost.
  destruct o as [[[context1 permuter1] zero]| |e|]; [|done| |].
  - rewrite (io_bind_ret _ _ _ _ _ Epost).
    destruct Hpost as (Hit & _ & Hopt & Hps & _).
    eexists _, _, _. split; [reflexivity|]. simpl.
    split; [done|]. split; [done|]. by rewrite length_insert, Hps.
  - destruct Hpost as [[Hnone _]|[Hon _]]; congruence.
  - destruct Hpost as [Hon _]. congruence.
Qed.

End SingleThread.

(** The single-threaded loop over finite seed spaces comes to an end.
    When [print_diffs] is off (so that no key press is waited for),
    every permuter's iterator is a finite list, [n] seeds are left in
    all, and [try_eval_candidate] gives scored candidates with their
    source, the loop returns after at most [n] calls of [post_score],
    and after exactly [n] when [stop_on_zero] is not set. *)
Theorem single_thread_search_ends `{ProfilerOps}
    (try_eval_candidate : Permuter -> Z -> EvalResult)
    (n fuel : nat) (context : EvalContext) (it : CycleState) (zero : bool) (w : World) :
  print_diffs (options context) = false ->
  (forall p s, exists r, try_eval_candidate p s = Scored r /\ is_Some (source r)) ->
  finite_state it -> valid_indices (length (permuters context)) it ->
  total_left it = n -> (n < fuel)%nat ->
  exists w' context' zero',
    single_loop try_eval_candidate fuel heartbeat context it zero w
    = (w', Ret (context', zero'))
    /\ options context' = options context
    /\ 0 <= iteration context' - iteration context <= Z.of_nat n
    /\ (stop_on_zero (options context) = false ->
        iteration context' - iteration context = Z.of_nat n).
Proof.
  intros Hdiffs Heval. revert n context it zero w Hdiffs.
  induction fuel as [|fuel IH];
    intros n context it zero w Hdiffs Hfin Hvalid Htotal Hfuel; [lia|].
  pose proof (finite_next _ _ Hfin Hvalid) as Hnext.
  cbn [single_loop].
  destruct (cycle_next it) as [[permuter_index seed] it'| |]; [| |done].
  - destruct Hnext as (Hfin' & Hvalid' & Hs & j & Hj & Hlt). simpl in Hj.
    destruct (lookup_lt_is_Some_2 _ _ Hlt) as [permuter Hp].
    assert (Py.index (permuters context) permuter_index = Ret permuter) as Hindex.
    { unfold Py.index. rewrite Hj.
      assert ((Z.of_nat j <? 0) = false) as -> by lia.
      assert ((0 <=? Z.of_nat j) && (Z.of_nat j <? Z.of_nat (length (permuters context)))
              = true) as -> by (apply andb_true_intro; split; lia).
      by rewrite Nat2Z.id, Hp. }
    destruct (Heval permuter seed) as (r & Hr & Hsrc).
    rewrite (io_bind_ret heartbeat _ w (fst (heartbeat w)) tt eq_refl).
    rewrite (io_bind_ret (lift _) _ _ (fst (heartbeat w)) permuter)
      by (unfold lift; by rewrite Hindex).
    rewrite Hr.
    destruct (process_result_scored context permuter_index permuter r (fst (heartbeat w))
                Hdiffs Hindex Hsrc) as (w1 & context1 & z & Hres & Hit & Hopt & Hlen).
    assert (print_diffs (options context1) = false) as Hdiffs1 by congruence.
    rewrite (io_bind_ret _ _ _ _ _ Hres). cbv beta iota.
    rewrite <- Hlen in Hvalid'.
    destruct n as [|n]; [lia|].
    assert (total_left it' = n) as Htotal' by lia.
    destruct z; [rewrite Hopt; destruct (stop_on_zero (options context)) eqn:Hstop|].
    + eexists _, _, _. split; [reflexivity|]. split; [done|]. split; [lia|done].
    + destruct (IH n context1 it' true w1 Hdiffs1 Hfin' Hvalid' Htotal') as
        (w' & context' & zero' & Hrun & Hopt' & Hcount & Hall); [lia|].
      exists w', context', zero'. split; [done|]. split; [congruence|].
      split; [lia|]. intros _. rewrite Hopt, Hstop in Hall. specialize (Hall eq_refl). lia.
    + destruct (IH n context1 it' zero w1 Hdiffs1 Hfin' Hvalid' Htotal') as
        (w' & context' & zero' & Hrun & Hopt' & Hcount & Hall); [lia|].
      exists w', context', zero'. split; [done|]. split; [congruence|].
      split; [lia|]. intros Hstop. rewrite Hopt in Hall. specialize (Hall Hstop). lia.
  - exists w, context, zero. split; [done|]. split; [done|]. split; lia.
Qed.

Lemma single_thread_search_ends_witness :
  exists w' context' zero',
    single_loop (fun _ _ => scored 5 "h") 7 heartbeat (sample_context three_targets)
      (cycle_seeds three_targets None) false sample_world
    = (w', Ret (context', zero'))
    /\ options context' = options (sample_context three_targets)
    /\ 0 <= iteration context' - iteration (sample_context three_targets) <= Z.of_nat 6
    /\ (stop_on_zero (options (sample_context three_targets)) = false ->
        iteration context' - iteration (sample_context three_targets) = Z.of_nat 6).
Proof.
  apply (single_thread_search_ends (fun _ _ => scored 5 "h") 6 7
           (sample_context three_targets) (cycle_seeds three_targets None) false
           sample_world).
  - reflexivity.
  - intros p s. eexists. split; [reflexivity|]. by eexists.
  - split; [|apply (bool_decide_unpack _); vm_compute; exact I].
    repeat (apply Forall_cons; split; [eexists; reflexivity|]). constructor.
  - repeat (apply Forall_cons; split;
            [first [by exists 0%nat; split; [reflexivity|simpl; lia]
                   |by exists 1%nat; split; [reflexivity|simpl; lia]
                   |by exists 2%nat; split; [reflexivity|simpl; lia]]|]).
    constructor.
  - reflexivity.
  - lia.
Defined.
